(** * OpenBlueLineEffect: the frame pipeline of the blue line generator

    A shallow embedding of [src/color.ts], [src/geom.ts] and the two
    revisions of [src/blueline.ts] found in the repository, together
    with the properties the specification states about them.

    Conventions.
    - A JavaScript [number] that only ever holds an integer (pixel
      sizes, frame counts, byte offsets) is a [Z]; [fps], [length] and
      [maxBuffer], which the caller may give as fractions, are [Q]: the
      exact value of the binary64 number.  The one product the program
      takes of two of them, [fps * length], is rounded as binary64
      rounds it ([Number.mul]).
    - A [Buffer] or [Uint8Array] of bytes is a [list byte].
    - An [undefined] or [null] option is [None].
    - What a method does to the outside world (processes, streams, the
      console, the error handler) is appended to the [events] field of
      the generator, oldest first. *)

From Stdlib Require Import ZArith QArith Qround Qabs.
From Stdlib Require Import List String Ascii Lia Bool.
From Stdlib Require Import Strings.Byte DecimalString HexadecimalString.
Import ListNotations.

Open Scope Z_scope.

(** ** [src/color.ts] *)

Module Color.

(** [Number.prototype.toString(16)] on an integer: lower-case digits,
    no leading zero, a minus sign for a negative number. *)
Definition toString16 (n : Z) : string :=
  HexadecimalString.NilZero.string_of_int (Z.to_hex_int n).

(** [String.prototype.repeat]. *)
Fixpoint repeat (s : string) (count : nat) : string :=
  match count with
  | O => EmptyString
  | S k => (s ++ repeat s k)%string
  end.

Definition zeroPadNumber (num : string) (desired_length : nat) : string :=
  if (String.length num <? desired_length)%nat
  then (repeat "0" (desired_length - String.length num) ++ num)%string
  else num.

Definition RgbToHexString (red green blue : Z) : string :=
  (zeroPadNumber (toString16 red) 2 ++
   zeroPadNumber (toString16 green) 2 ++
   zeroPadNumber (toString16 blue) 2)%string.

(** The reader the round trip is stated with: a group of hexadecimal
    digits read as a base-16 integer ([parseInt(group, 16)] on a
    string made of lower-case hexadecimal digits only). *)
Definition parseHex (group : string) : option Z :=
  option_map (fun u => Z.of_N (N.of_hex_uint u))
             (HexadecimalString.NilZero.uint_of_string group).

Definition isHexDigit (c : ascii) : bool :=
  let n := nat_of_ascii c in
  ((48 <=? n) && (n <=? 57) || (97 <=? n) && (n <=? 102))%nat.

Fixpoint allChars (p : ascii -> bool) (s : string) : bool :=
  match s with
  | EmptyString => true
  | String c r => p c && allChars p r
  end.

(** What one channel contributes: two hexadecimal digits that read
    back as the channel. *)
Definition channelOk (n : Z) : bool :=
  let g := zeroPadNumber (toString16 n) 2 in
  (String.length g =? 2)%nat && allChars isHexDigit g &&
  match parseHex g with Some m => m =? n | None => false end.

End Color.

(** ** [src/geom.ts] *)

Module Point.

Record t := new { X : Z; Y : Z }.

End Point.

Module Size.

Record t := new { Width : Z; Height : Z }.

End Size.

Module BoundingBox.

Record t := mk {
  TopLeft : Point.t;
  TopRight : Point.t;
  BottomLeft : Point.t;
  BottomRight : Point.t
}.

Definition new (x y width height : Z) : t :=
  mk (Point.new x y) (Point.new (x + width) y) (Point.new x (y + height))
     (Point.new (x + width) (y + height)).

End BoundingBox.

Module Rectangle.

Record t := mk { Size : Size.t; Position : Point.t }.

(** [new Rectangle(x, y, width, height)]; every argument defaults to 0. *)
Definition new (x y width height : Z) : t :=
  mk (Size.new width height) (Point.new x y).

Definition X (r : t) : Z := Point.X (Position r).
Definition Y (r : t) : Z := Point.Y (Position r).
Definition Width (r : t) : Z := Size.Width (Size r).
Definition Height (r : t) : Z := Size.Height (Size r).

Definition set_X (value : Z) (r : t) : t :=
  mk (Size r) (Point.new value (Point.Y (Position r))).
Definition set_Y (value : Z) (r : t) : t :=
  mk (Size r) (Point.new (Point.X (Position r)) value).
Definition set_Width (value : Z) (r : t) : t :=
  mk (Size.new value (Size.Height (Size r))) (Position r).
Definition set_Height (value : Z) (r : t) : t :=
  mk (Size.new (Size.Width (Size r)) value) (Position r).

(** The assignment [rect.Size = size]. *)
Definition set_Size (size : Size.t) (r : t) : t := mk size (Position r).

Definition GetBounds (r : t) : BoundingBox.t :=
  BoundingBox.new (Point.X (Position r)) (Point.Y (Position r))
                  (Size.Width (Size r)) (Size.Height (Size r)).

End Rectangle.

(** ** Node's [Buffer], as far as the generator uses it *)

Module Buffer.

Definition t := list byte.

(** Whether [value] is a prefix of [buf]. *)
Fixpoint startsWith (value buf : t) : bool :=
  match value, buf with
  | [], _ => true
  | _ :: _, [] => false
  | v :: vs, b :: bs => Byte.eqb v b && startsWith vs bs
  end.

(** The first offset at or after [pos] where [value] occurs, [buf]
    being what is left of the buffer from [pos] on; -1 when there is
    none. *)
Fixpoint indexOfFrom (value buf : t) (pos : Z) : Z :=
  if startsWith value buf then pos
  else match buf with
       | [] => -1
       | _ :: rest => indexOfFrom value rest (pos + 1)
       end.

(** [buf.indexOf(value, byteOffset, 'binary')] for a [Uint8Array]
    value: a negative offset counts from the end of the buffer, an
    offset past the end finds nothing. *)
Definition indexOf (buf value : t) (byteOffset : Z) : Z :=
  let len := Z.of_nat (List.length buf) in
  let offset := if byteOffset <? 0 then Z.max 0 (len + byteOffset)
                else byteOffset in
  if len <? offset then -1
  else indexOfFrom value (skipn (Z.to_nat offset) buf) offset.

(** How [slice] reads an index: negative counts from the end, and the
    result is kept within the buffer. *)
Definition clamp (len i : Z) : Z :=
  if i <? 0 then Z.max 0 (len + i) else Z.min i len.

(** [buf.slice(start, end)]; [buf.slice(start)] is [slice buf start None]. *)
Definition slice (buf : t) (start : Z) (end_ : option Z) : t :=
  let len := Z.of_nat (List.length buf) in
  let s := clamp len start in
  let e := match end_ with Some e => clamp len e | None => len end in
  firstn (Z.to_nat (e - s)) (skipn (Z.to_nat s) buf).

End Buffer.

(** ** Numbers of the runtime

    A JavaScript [number] is an IEEE 754 binary64 value: 53 significant
    bits, the last of them worth no less than 2^-1074.  A finite one is
    held as the rational it stands for, and the result of an operation
    is the exact result rounded to the nearest such value, ties to the
    even significand. *)

Module Number.

(** Two to the power [e], for [e] of either sign. *)
Definition pow2 (e : Z) : Q :=
  if 0 <=? e then inject_Z (2 ^ e) else / inject_Z (2 ^ (- e)).

(** The binary exponent of a real other than zero: the [l] with
    [2^l <= |q| < 2^(l+1)]. *)
Definition ilog2 (q : Q) : Z :=
  let l := Z.log2 (Z.abs (Qnum q)) - Z.log2 (Zpos (Qden q)) in
  if Qle_bool (pow2 l) (Qabs q) then l else l - 1.

(** The exponent of the last significant bit at the magnitude of [q]. *)
Definition ulpExponent (q : Q) : Z := Z.max (ilog2 q - 52) (-1074).

(** The nearest integer, a tie going to the even one. *)
Definition roundTiesToEven (q : Q) : Z :=
  let f := Qfloor q in
  match (q - inject_Z f ?= 1 # 2)%Q with
  | Lt => f
  | Gt => f + 1
  | Eq => if Z.even f then f else f + 1
  end.

(** The largest finite value. *)
Definition MAX_VALUE : Q := inject_Z ((2 ^ 53 - 1) * 2 ^ 971).

(** The binary64 value a real is rounded to.  A real of magnitude
    [MAX_VALUE + 2^970] or more gives an infinity in JavaScript, which
    [Q] does not have; every statement below about a rounded value has
    the real under 2^53. *)
Definition round (q : Q) : Q :=
  let ulp := pow2 (ulpExponent q) in
  (inject_Z (roundTiesToEven (q / ulp)) * ulp)%Q.

(** A rational that is a finite JavaScript number. *)
Definition isDouble (q : Q) : bool :=
  Qeq_bool (round q) q && Qle_bool (Qabs q) MAX_VALUE.

(** [x * y] on two numbers. *)
Definition mul (x y : Q) : Q := round (x * y).

End Number.

(** ** [src/blueline.ts]

    The repository holds the file twice: [src/src/blueline.ts], and a
    later revision under [src/unnamed/part_000] that adds the line, the
    second canvas and the frame-by-frame continuation.  What the two
    share is written once; where they differ the definition takes the
    revision. *)

Module BlueLine.

Inductive Revision := blueline_ts | part_000.

Definition JPEG_FILE_MAGIC_NUMBER : Buffer.t := [xff; xd8; xff].
Definition PNG_FILE_MAGIC_NUMBER : Buffer.t := [x89; x50; x4e; x47].

Inductive FrameCodec := mjpeg | png.

Inductive LineDirection := left | right | up | down.

(** [['mjpeg', 'png'].indexOf(s) === -1] is [None]. *)
Definition FrameCodec_of_string (s : string) : option FrameCodec :=
  if String.eqb s "mjpeg" then Some mjpeg
  else if String.eqb s "png" then Some png
  else None.

(** [['left', 'right', 'up', 'down'].indexOf(s) === -1] is [None]. *)
Definition LineDirection_of_string (s : string) : option LineDirection :=
  if String.eqb s "left" then Some left
  else if String.eqb s "right" then Some right
  else if String.eqb s "up" then Some up
  else if String.eqb s "down" then Some down
  else None.

(** The options object as the caller hands it over: any property may
    be missing, and the strings need not be valid choices. *)
Module Raw.
Record t := mk {
  input : option string;
  output : option string;
  ffmpegPath : option string;
  maxBuffer : option Q;
  length : option Q;
  lineDirection : option string;
  frameCodec : option string;
  lineColor : option (list Z);
  fps : option Q
}.
End Raw.

(** The same object once the constructor has filled it in. *)
Module Options.
Record t := mk {
  input : string;
  output : string;
  ffmpegPath : string;
  maxBuffer : Q;
  length : Q;
  lineDirection : LineDirection;
  frameCodec : FrameCodec;
  lineColor : list Z;
  fps : Q
}.
End Options.

Definition DEFAULT_MAX_BUFFER : Q := (1024 * 1024 * 50)%Q.

Definition DEFAULT_LINE_COLOR (rev : Revision) : list Z :=
  match rev with
  | blueline_ts => []
  | part_000 => [0; 194; 203]
  end.

Definition DEFAULT_LENGTH : Q := 10%Q.
Definition DEFAULT_FRAME_CODEC : FrameCodec := mjpeg.
Definition DEFAULT_LINE_DIRECTION : LineDirection := right.
Definition DEFAULT_FRAMERATE : Q := 25.0%Q.

(** What is thrown, or handed to the error handler: a string, or an
    [Error] object with its message. *)
Inductive Value := Text (s : string) | ErrorObject (message : string).

Inductive Outcome (A : Type) :=
| Returns (a : A)
| Throws (e : Value)
| OutOfFuel.
Arguments Returns {A} a.
Arguments Throws {A} e.
Arguments OutOfFuel {A}.

(** A decoded frame, as [loadImage] resolves it. *)
Record Image := { width : Z; height : Z }.

Inductive Event :=
| ExecFileDecoder (file input : string) (codec : FrameCodec) (r : Q)
                  (frames : Z) (maxBuffer : Q)
| ExecFileEncoder (file : string) (r : Q) (codec : FrameCodec)
                  (output : string)
| StdinOnError
| StdinWrite
| StdinEnd
| ErrorHandler (error : Value)
| ConsoleLog (s : string)
| ConsoleInfo (s : string)
| ConsoleError (s : string)
| StrokeProperties (strokeStyle : string) (lineWidth shadowBlur : Z)
| DrawImage (clip : Rectangle.t)
| ClearRect (w h : Z)
| DrawEffectCanvas
| StrokeLine (moveTo lineTo : Point.t)
| UnhandledRejection.

Record BlueLineGenerator := mk {
  options : Options.t;
  totalFrames : Z;
  frameImages : list Buffer.t;
  effectCanvas : Size.t;
  outputCanvas : Size.t;
  currentFrameNum : Z;
  cropRect : Rectangle.t;
  cropRectShrinkSize : Size.t;
  events : list Event
}.

Definition set_totalFrames (v : Z) (g : BlueLineGenerator) :=
  mk (options g) v (frameImages g) (effectCanvas g) (outputCanvas g)
     (currentFrameNum g) (cropRect g) (cropRectShrinkSize g) (events g).
Definition set_frameImages (v : list Buffer.t) (g : BlueLineGenerator) :=
  mk (options g) (totalFrames g) v (effectCanvas g) (outputCanvas g)
     (currentFrameNum g) (cropRect g) (cropRectShrinkSize g) (events g).
Definition set_effectCanvas (v : Size.t) (g : BlueLineGenerator) :=
  mk (options g) (totalFrames g) (frameImages g) v (outputCanvas g)
     (currentFrameNum g) (cropRect g) (cropRectShrinkSize g) (events g).
Definition set_outputCanvas (v : Size.t) (g : BlueLineGenerator) :=
  mk (options g) (totalFrames g) (frameImages g) (effectCanvas g) v
     (currentFrameNum g) (cropRect g) (cropRectShrinkSize g) (events g).
Definition set_currentFrameNum (v : Z) (g : BlueLineGenerator) :=
  mk (options g) (totalFrames g) (frameImages g) (effectCanvas g)
     (outputCanvas g) v (cropRect g) (cropRectShrinkSize g) (events g).
Definition set_cropRect (v : Rectangle.t) (g : BlueLineGenerator) :=
  mk (options g) (totalFrames g) (frameImages g) (effectCanvas g)
     (outputCanvas g) (currentFrameNum g) v (cropRectShrinkSize g) (events g).
Definition set_cropRectShrinkSize (v : Size.t) (g : BlueLineGenerator) :=
  mk (options g) (totalFrames g) (frameImages g) (effectCanvas g)
     (outputCanvas g) (currentFrameNum g) (cropRect g) v (events g).

(** One more effect on the outside world. *)
Definition emit (e : Event) (g : BlueLineGenerator) :=
  mk (options g) (totalFrames g) (frameImages g) (effectCanvas g)
     (outputCanvas g) (currentFrameNum g) (cropRect g)
     (cropRectShrinkSize g) (events g ++ [e]).

(** *** The constructor *)

(** [!s] for a string: missing or empty. *)
Definition falsyString (s : option string) : bool :=
  match s with
  | None => true
  | Some s => String.eqb s ""
  end.

(** [!n] for a number: missing or zero. *)
Definition falsyNumber (n : option Q) : bool :=
  match n with
  | None => true
  | Some q => Qeq_bool q 0
  end.

(** [!o] for an array: only a missing one is falsy, an empty one is not. *)
Definition falsyObject {A : Type} (o : option A) : bool :=
  match o with
  | None => true
  | Some _ => false
  end.

(** [if (!options.p) { options.p = d; }] and then [options.p]. *)
Definition stringOr (p : option string) (d : string) : string :=
  match p with
  | Some s => if falsyString p then d else s
  | None => d
  end.

Definition numberOr (p : option Q) (d : Q) : Q :=
  match p with
  | Some q => if falsyNumber p then d else q
  | None => d
  end.

Definition objectOr {A : Type} (p : option A) (d : A) : A :=
  match p with
  | Some o => if falsyObject p then d else o
  | None => d
  end.

(** [if (!options.p || choices.indexOf(options.p) === -1) { options.p = d; }] *)
Definition choiceOr {A : Type} (of_string : string -> option A)
           (p : option string) (d : A) : A :=
  match p with
  | Some s => if falsyString p then d
              else match of_string s with
                   | Some c => c
                   | None => d
                   end
  | None => d
  end.

Definition constructor (rev : Revision) (options : Raw.t)
  : Outcome BlueLineGenerator :=
  if falsyString (Raw.input options) then
    Throws (ErrorObject "No input specified.")
  else if falsyString (Raw.output options) then
    Throws (ErrorObject "No output specified.")
  else
    let options :=
      Options.mk
        (stringOr (Raw.input options) "")
        (stringOr (Raw.output options) "")
        (stringOr (Raw.ffmpegPath options) "ffmpeg")
        (numberOr (Raw.maxBuffer options) DEFAULT_MAX_BUFFER)
        (numberOr (Raw.length options) DEFAULT_LENGTH)
        (choiceOr LineDirection_of_string (Raw.lineDirection options)
                  DEFAULT_LINE_DIRECTION)
        (choiceOr FrameCodec_of_string (Raw.frameCodec options)
                  DEFAULT_FRAME_CODEC)
        (objectOr (Raw.lineColor options) (DEFAULT_LINE_COLOR rev))
        (numberOr (Raw.fps options) DEFAULT_FRAMERATE) in
    Returns (mk options 0 [] (Size.new 0 0) (Size.new 0 0) 0
                (Rectangle.new 0 0 0 0) (Size.new 0 0) []).

(** *** Numbers and strings of the runtime *)

(** [Math.ceil(a / b)] on two integers.  For [b = 0] JavaScript gives
    an infinity or NaN, which [Z] does not have; every statement below
    that uses the quotient has [b >= 1]. *)
Definition Math_ceil_div (a b : Z) : Z :=
  Qceiling (inject_Z a / inject_Z b).

(** An integer in a template literal or after [+] on a string. *)
Definition decimal (n : Z) : string :=
  DecimalString.NilZero.string_of_int (Z.to_int n).

Definition newline : string := String "010"%char EmptyString.
Definition quote : string := String "034"%char EmptyString.

(** *** The crop rectangle *)

(** The first frame fixes the rectangle and the step (part_000 lines
    361-373, blueline.ts lines 289-301). *)
Definition firstFrameCrop (lineDirection : LineDirection) (totalFrames : Z)
           (image : Image) (cropRect : Rectangle.t)
           (cropRectShrinkSize : Size.t) : Rectangle.t * Size.t :=
  let cropRect :=
    Rectangle.set_Size (Size.new (width image) (height image)) cropRect in
  match lineDirection with
  | left | right =>
      (cropRect,
       Size.new (Math_ceil_div (width image) totalFrames)
                (Size.Height cropRectShrinkSize))
  | up | down =>
      (cropRect,
       Size.new (Size.Width cropRectShrinkSize)
                (Math_ceil_div (height image) totalFrames))
  end.

(** The rectangle for the next frame (part_000 lines 435-454,
    blueline.ts lines 323-342). *)
Definition advance (lineDirection : LineDirection)
           (cropRectShrinkSize : Size.t) (cropRect : Rectangle.t)
  : Rectangle.t :=
  match lineDirection with
  | left =>
      Rectangle.set_Width
        (Rectangle.Width cropRect - Size.Width cropRectShrinkSize) cropRect
  | right =>
      let cropRect :=
        Rectangle.set_Width
          (Rectangle.Width cropRect - Size.Width cropRectShrinkSize)
          cropRect in
      Rectangle.set_X
        (Rectangle.X cropRect + Size.Width cropRectShrinkSize) cropRect
  | up =>
      Rectangle.set_Height
        (Rectangle.Height cropRect - Size.Height cropRectShrinkSize) cropRect
  | down =>
      let cropRect :=
        Rectangle.set_Height
          (Rectangle.Height cropRect - Size.Height cropRectShrinkSize)
          cropRect in
      Rectangle.set_Y
        (Rectangle.Y cropRect + Size.Height cropRectShrinkSize) cropRect
  end.

(** Where the line goes: the arguments of [moveTo] and of [lineTo]
    (part_000 lines 393-414). *)
Definition line (lineDirection : LineDirection) (cropRect : Rectangle.t)
  : Point.t * Point.t :=
  match lineDirection with
  | left =>
      (Point.new (Rectangle.Width cropRect) 0,
       Point.new (Rectangle.Width cropRect) (Rectangle.Height cropRect))
  | right =>
      (Point.new (Rectangle.X cropRect) 0,
       Point.new (Rectangle.X cropRect) (Rectangle.Height cropRect))
  | up =>
      (Point.new 0 (Rectangle.Height cropRect),
       Point.new (Rectangle.Width cropRect) (Rectangle.Height cropRect))
  | down =>
      (Point.new 0 (Rectangle.Y cropRect),
       Point.new (Rectangle.Width cropRect) (Rectangle.Y cropRect))
  end.

(** *** Frame extraction *)

Definition magicNumberOf (frameCodec : FrameCodec) : Buffer.t :=
  match frameCodec with
  | mjpeg => JPEG_FILE_MAGIC_NUMBER
  | png => PNG_FILE_MAGIC_NUMBER
  end.

(** The [while] loop of [OnFfmpegFramesOutputFinished]; [None] when
    the fuel runs out before the loop ends. *)
Fixpoint scan (fuel : nat) (stdout magicNumber : Buffer.t)
         (startIndex endIndex : Z) (frameImages : list Buffer.t)
  : option (list Buffer.t) :=
  match fuel with
  | O => None
  | S fuel =>
      if startIndex =? -1 then Some frameImages
      else if negb (endIndex =? -1) then
        scan fuel stdout magicNumber endIndex
             (Buffer.indexOf stdout magicNumber
                (endIndex + Z.of_nat (List.length magicNumber)))
             (frameImages ++ [Buffer.slice stdout startIndex (Some endIndex)])
      else Some (frameImages ++ [Buffer.slice stdout startIndex None])
  end.

(** The frames of [stdout]: the two searches before the loop, then the
    loop, with one round of fuel for every byte and one to leave. *)
Definition extractFrames (frameCodec : FrameCodec) (stdout : Buffer.t)
  : option (list Buffer.t) :=
  let magicNumber := magicNumberOf frameCodec in
  let startIndex := Buffer.indexOf stdout magicNumber 0 in
  let endIndex :=
    Buffer.indexOf stdout magicNumber
      (startIndex + Z.of_nat (List.length magicNumber)) in
  scan (S (List.length stdout)) stdout magicNumber startIndex endIndex [].

Definition notEnoughFrames (totalFrames found : Z) : string :=
  ("Not enough frames were exported to fulfill the length of the effect. Expected "
   ++ decimal totalFrames ++ " but got " ++ decimal found ++ "." ++ newline
   ++ "Specify effect length with the -l argument.")%string.
(** *** The methods

    [existsSync] and [loadImage] belong to the world outside: which
    files exist, and what a frame decodes to ([None] when the promise
    of [loadImage] is rejected). *)

Section Methods.

Variable existsSync : string -> bool.
Variable loadImage : Buffer.t -> option Image.

Definition Generate (rev : Revision) (g : BlueLineGenerator)
  : Outcome BlueLineGenerator :=
  if negb (existsSync (Options.input (options g))) then
    Throws (ErrorObject "Input file does not exist.")
  else
    let g :=
      set_totalFrames
        (Qceiling
           (Number.mul (Options.fps (options g)) (Options.length (options g))))
        g in
    let g :=
      emit (ExecFileDecoder
              (Options.ffmpegPath (options g)) (Options.input (options g))
              (Options.frameCodec (options g)) (Options.fps (options g))
              (totalFrames g) (Options.maxBuffer (options g))) g in
    match rev with
    | blueline_ts => Returns g
    | part_000 => Returns (set_currentFrameNum 0 g)
    end.

Definition GetNextFrame (g : BlueLineGenerator)
  : option Buffer.t * BlueLineGenerator :=
  if Z.of_nat (List.length (frameImages g)) <=? currentFrameNum g then
    (None, g)
  else
    (if currentFrameNum g <? 0 then None
     else nth_error (frameImages g) (Z.to_nat (currentFrameNum g)),
     set_currentFrameNum (currentFrameNum g + 1) g).

(** ['#' + RgbToHexString(lineColor[0], lineColor[1], lineColor[2])];
    [None] when a channel is missing, where [toString] of [undefined]
    throws. *)
Definition strokeStyleOf (lineColor : list Z) : option string :=
  match lineColor with
  | red :: green :: blue :: _ =>
      Some ("#" ++ Color.RgbToHexString red green blue)%string
  | _ => None
  end.

(** The branch [if (this.effectCanvas.width === 0)] of part_000; the
    flag is false when the stroke style could not be computed. *)
Definition firstFrame (g : BlueLineGenerator) (image : Image)
  : BlueLineGenerator * bool :=
  let g := set_effectCanvas (Size.new (width image) (height image)) g in
  let g := set_outputCanvas (Size.new (width image) (height image)) g in
  match strokeStyleOf (Options.lineColor (options g)) with
  | None => (g, false)
  | Some strokeStyle =>
      let g := emit (StrokeProperties strokeStyle 8 15) g in
      let (rect, step) :=
        firstFrameCrop (Options.lineDirection (options g)) (totalFrames g)
                       image (cropRect g) (cropRectShrinkSize g) in
      (set_cropRectShrinkSize step (set_cropRect rect g), true)
  end.

(** One call of [DoEffectSingleFrame] in part_000.  The flag tells
    whether the call left a ['close'] listener behind, which will ask
    for the next frame. *)
Definition DoEffectSingleFrame (g : BlueLineGenerator)
           (frame : option Buffer.t) : BlueLineGenerator * bool :=
  match frame with
  | None => (emit StdinEnd g, false)
  | Some frame =>
      let g :=
        emit (ConsoleInfo ("Frame #" ++ decimal (currentFrameNum g))) g in
      match loadImage frame with
      | None => (emit UnhandledRejection g, false)
      | Some image =>
          let (g, ok) :=
            if Size.Width (effectCanvas g) =? 0 then firstFrame g image
            else (g, true) in
          if negb ok then (emit UnhandledRejection g, false)
          else
            let g := emit (DrawImage (cropRect g)) g in
            let g :=
              emit (ClearRect (Size.Width (outputCanvas g))
                              (Size.Width (outputCanvas g))) g in
            let g := emit DrawEffectCanvas g in
            let (moveTo, lineTo) :=
              line (Options.lineDirection (options g)) (cropRect g) in
            let g := emit (StrokeLine moveTo lineTo) g in
            let g := emit StdinWrite g in
            (set_cropRect
               (advance (Options.lineDirection (options g))
                        (cropRectShrinkSize g) (cropRect g)) g,
             true)
      end
  end.

(** [DoEffectSingleFrame(GetNextFrame())], and again from every
    ['close'] listener. *)
Fixpoint frameChain (fuel : nat) (g : BlueLineGenerator)
  : Outcome BlueLineGenerator :=
  match fuel with
  | O => OutOfFuel
  | S fuel =>
      let (frame, g) := GetNextFrame g in
      let (g, again) := DoEffectSingleFrame g frame in
      if again then frameChain fuel g else Returns g
  end.

(** The [for] loop of [DoEffect] in blueline.ts and the [end()] after
    it.  Its locals [canvas], [cropRect] and [cropRectShrinkSize] are
    kept in the fields [effectCanvas], [cropRect] and
    [cropRectShrinkSize]. *)
Fixpoint forFrames (g : BlueLineGenerator) (frames : list Buffer.t)
  : BlueLineGenerator :=
  match frames with
  | [] => emit StdinEnd g
  | frame :: frames =>
      match loadImage frame with
      | None => emit UnhandledRejection g
      | Some image =>
          let g :=
            if Size.Width (effectCanvas g) =? 0 then
              let g :=
                set_effectCanvas
                  (Size.new (width image) (height image)) g in
              let (rect, step) :=
                firstFrameCrop (Options.lineDirection (options g))
                               (totalFrames g) image (cropRect g)
                               (cropRectShrinkSize g) in
              set_cropRectShrinkSize step (set_cropRect rect g)
            else g in
          let g := emit (DrawImage (cropRect g)) g in
          let g := emit StdinWrite g in
          forFrames
            (set_cropRect
               (advance (Options.lineDirection (options g))
                        (cropRectShrinkSize g) (cropRect g)) g)
            frames
      end
  end.

Definition DoEffect (rev : Revision) (g : BlueLineGenerator)
  : Outcome BlueLineGenerator :=
  let g := emit (ConsoleLog "Creating effect...") g in
  let encoder :=
    ExecFileEncoder (Options.ffmpegPath (options g))
                    (Options.fps (options g))
                    (Options.frameCodec (options g))
                    (Options.output (options g)) in
  match rev with
  | blueline_ts =>
      let g := set_effectCanvas (Size.new 0 0) g in
      let g := emit encoder g in
      let g := set_cropRectShrinkSize (Size.new 0 0) g in
      let g := set_cropRect (Rectangle.new 0 0 0 0) g in
      Returns (forFrames g (frameImages g))
  | part_000 =>
      let g := emit encoder g in
      let g := emit StdinOnError g in
      let g := set_effectCanvas (Size.new 0 0) g in
      let g := set_outputCanvas (Size.new 0 0) g in
      let g := set_cropRect (Rectangle.new 0 0 0 0) g in
      let g := set_cropRectShrinkSize (Size.new 0 0) g in
      frameChain (S (List.length (frameImages g))) g
  end.

(** [error] is [None] when the decoder ended well. *)
Definition OnFfmpegFramesOutputFinished (rev : Revision)
           (g : BlueLineGenerator) (error : option string)
           (stdout : Buffer.t) : Outcome BlueLineGenerator :=
  match error with
  | Some e => Throws (ErrorObject e)
  | None =>
      match extractFrames (Options.frameCodec (options g)) stdout with
      | None => OutOfFuel
      | Some frames =>
          let g := set_frameImages frames g in
          let found := Z.of_nat (List.length (frameImages g)) in
          let g :=
            if found <? totalFrames g then
              emit (ErrorHandler
                      (Text (notEnoughFrames (totalFrames g) found))) g
            else g in
          let g :=
            emit (ConsoleLog ("Frames extracted: " ++ decimal found)) g in
          DoEffect rev g
      end
  end.

Definition OnFfmpegEffectFinished (rev : Revision) (g : BlueLineGenerator)
           (error : option string) : BlueLineGenerator :=
  let g :=
    match error with
    | Some e => emit (ErrorHandler (ErrorObject e)) g
    | None => g
    end in
  let g :=
    match rev with
    | blueline_ts => g
    | part_000 => emit StdinEnd g
    end in
  emit (ConsoleLog ("Output to " ++ quote ++ Options.output (options g)
                      ++ quote)) g.

(** The listener of ['error'] on the encoder's input in part_000, the
    callback handed to every [write] in blueline.ts. *)
Definition OnEffectError (rev : Revision) (g : BlueLineGenerator)
           (error : option string) : BlueLineGenerator :=
  match error with
  | Some e =>
      let g :=
        match rev with
        | blueline_ts => g
        | part_000 => emit StdinEnd g
        end in
      emit (ErrorHandler (ErrorObject e)) g
  | None => g
  end.

(** ['An error occured: ' + error] *)
Definition occured (error : Value) : string :=
  match error with
  | Text s => ("An error occured: " ++ s)%string
  | ErrorObject message => ("An error occured: Error: " ++ message)%string
  end.

(** The [try] block at the end of [src/index.ts]: what has happened
    in the world when it is left. *)
Definition index_try (rev : Revision) (options : Raw.t) : list Event :=
  match constructor rev options with
  | Returns generator =>
      match Generate rev generator with
      | Returns generator => events generator
      | Throws error => [ConsoleError (occured error)]
      | OutOfFuel => []
      end
  | Throws error => [ConsoleError (occured error)]
  | OutOfFuel => []
  end.

End Methods.

End BlueLine.

(** ** [src/index.ts]: the name of the output when none is given *)

Module Index.

(** [s.lastIndexOf(c)] for a [c] of one character, scanning from
    [pos]; [found] is the last index seen so far, -1 for none. *)
Fixpoint lastIndexOfFrom (c : ascii) (s : string) (pos found : Z) : Z :=
  match s with
  | EmptyString => found
  | String a rest =>
      lastIndexOfFrom c rest (pos + 1) (if Ascii.eqb a c then pos else found)
  end.

Definition lastIndexOf (s : string) (c : ascii) : Z :=
  lastIndexOfFrom c s 0 (-1).

(** What the block [if (!args.output)] makes of the base name of the
    input. *)
Definition defaultFilename (filename : string) : string :=
  let extensionIndex := lastIndexOf filename "." in
  if negb (extensionIndex =? -1) then
    (substring 0 (Z.to_nat extensionIndex) filename ++ "_blueline.mp4")%string
  else (filename ++ "_blueline")%string.

(** The whole block, over the functions of Node's [path]. *)
Section Paths.

Variables basename dirname : string -> string.
Variable join : string -> string -> string.

Definition defaultOutput (input : string) : string :=
  join (dirname input) (defaultFilename (basename input)).

End Paths.

End Index.

(** ** [scripts/package.js]: the name of the archive *)

Module Package.

(** [version.replace(/\./g, '-')] *)
Fixpoint replaceDots (version : string) : string :=
  match version with
  | EmptyString => EmptyString
  | String c rest =>
      String (if Ascii.eqb c "." then "-"%char else c) (replaceDots rest)
  end.

(** The second argument of [path.join(DIST_DIR, ...)] for the archive. *)
Definition zipName (version : string) : string :=
  ("openblueline-" ++ replaceDots version ++ ".zip")%string.

End Package.

Import BlueLine.

(** ** Vocabulary of the properties *)

(** [value] occurs in [buf] at offset [p]. *)
Definition occursAt (value buf : Buffer.t) (p : nat) : bool :=
  Buffer.startsWith value (skipn p buf).

(** The offsets at which the images begin when they are laid end to
    end, the first one at [base]. *)
Fixpoint startsFrom (base : nat) (images : list Buffer.t) : list nat :=
  match images with
  | [] => []
  | image :: images => base :: startsFrom (base + List.length image) images
  end.

(** An offset the scan never searches: within the magic number that
    opens one of the images, past its first byte. *)
Definition insideMagic (m : nat) (starts : list nat) (p : nat) : Prop :=
  exists s, In s starts /\ (s < p < s + m)%nat.

(** The lines stroked, the rectangles drawn and the calls of the error
    handler among the events, in order. *)
Definition strokes (evs : list Event) : list (Point.t * Point.t) :=
  flat_map (fun e => match e with
                     | StrokeLine moveTo lineTo => [(moveTo, lineTo)]
                     | _ => []
                     end) evs.

Definition clips (evs : list Event) : list Rectangle.t :=
  flat_map (fun e => match e with
                     | DrawImage clip => [clip]
                     | _ => []
                     end) evs.

Definition handled (evs : list Event) : list Value :=
  flat_map (fun e => match e with
                     | ErrorHandler error => [error]
                     | _ => []
                     end) evs.

(** The frames written to the encoder and the times its input was
    ended, counted; the processes started, in order. *)
Definition isWrite (e : Event) : bool :=
  match e with StdinWrite => true | _ => false end.

Definition isEnd (e : Event) : bool :=
  match e with StdinEnd => true | _ => false end.

Definition written (evs : list Event) : nat :=
  List.length (filter isWrite evs).

Definition ended (evs : list Event) : nat :=
  List.length (filter isEnd evs).

Definition spawned (evs : list Event) : list Event :=
  filter (fun e => match e with
                   | ExecFileDecoder _ _ _ _ _ _ => true
                   | ExecFileEncoder _ _ _ _ => true
                   | _ => false
                   end) evs.

(** What a stretch of events holds: so many frames written, the input
    of the encoder not ended, the error handler not called, no process
    started. *)
Definition onlyWrites (n : nat) (es : list Event) : Prop :=
  written es = n /\ ended es = 0%nat /\ handled es = [] /\ spawned es = [].

(** A string without a dot. *)
Definition noDot (s : string) : bool :=
  Color.allChars (fun c => negb (Ascii.eqb c ".")) s.

(** * Properties *)

(** ** Colours *)

Lemma channels_ok :
  forallb Color.channelOk (map Z.of_nat (seq 0 256)) = true.
Proof. vm_compute. reflexivity. Qed.

Lemma channel_ok (n : Z) : 0 <= n <= 255 -> Color.channelOk n = true.
Proof.
  intros Hn.
  pose proof channels_ok as H.
  rewrite forallb_forall in H. apply H.
  apply in_map_iff.
  exists (Z.to_nat n). split; [lia|].
  apply in_seq. lia.
Qed.

(** A channel in range becomes exactly two hexadecimal digits, and
    they read back as the channel. *)
Lemma channel_group (n : Z) :
  0 <= n <= 255 ->
  exists hi lo : ascii,
    Color.zeroPadNumber (Color.toString16 n) 2
    = String hi (String lo EmptyString) /\
    Color.isHexDigit hi = true /\ Color.isHexDigit lo = true /\
    Color.parseHex (String hi (String lo EmptyString)) = Some n.
Proof.
  intros Hn. pose proof (channel_ok n Hn) as H.
  unfold Color.channelOk in H.
  destruct (Color.zeroPadNumber (Color.toString16 n) 2)
    as [|hi [|lo [|c r]]] eqn:E;
    cbn [String.length Nat.eqb andb] in H; try discriminate.
  exists hi, lo. split; [reflexivity|].
  apply andb_prop in H. destruct H as [Hd Hp].
  cbn [Color.allChars] in Hd.
  apply andb_prop in Hd. destruct Hd as [Hhi Hlo].
  apply andb_prop in Hlo. destruct Hlo as [Hlo _].
  repeat split; try assumption.
  destruct (Color.parseHex (String hi (String lo EmptyString))) as [m|];
    [|discriminate].
  apply Z.eqb_eq in Hp. now subst.
Qed.

(** C10. For channels in 0..255 [RgbToHexString] gives six hexadecimal
    digits and no pound sign: the three channels, each zero-padded to
    two base-16 digits, in the order red, green, blue; reading the
    three groups of two back in base 16 gives the channels again. *)
Theorem RgbToHexString_round_trip (red green blue : Z) :
  0 <= red <= 255 -> 0 <= green <= 255 -> 0 <= blue <= 255 ->
  let s := Color.RgbToHexString red green blue in
  String.length s = 6%nat /\
  Color.allChars Color.isHexDigit s = true /\
  s = (Color.zeroPadNumber (Color.toString16 red) 2 ++
       Color.zeroPadNumber (Color.toString16 green) 2 ++
       Color.zeroPadNumber (Color.toString16 blue) 2)%string /\
  String.length (Color.zeroPadNumber (Color.toString16 red) 2) = 2%nat /\
  String.length (Color.zeroPadNumber (Color.toString16 green) 2) = 2%nat /\
  String.length (Color.zeroPadNumber (Color.toString16 blue) 2) = 2%nat /\
  Color.parseHex (substring 0 2 s) = Some red /\
  Color.parseHex (substring 2 2 s) = Some green /\
  Color.parseHex (substring 4 2 s) = Some blue.
Proof.
  intros Hr Hg Hb s. subst s. unfold Color.RgbToHexString.
  destruct (channel_group red Hr) as (r1 & r2 & Er & Hr1 & Hr2 & Pr).
  destruct (channel_group green Hg) as (g1 & g2 & Eg & Hg1 & Hg2 & Pg).
  destruct (channel_group blue Hb) as (b1 & b2 & Eb & Hb1 & Hb2 & Pb).
  rewrite Er, Eg, Eb.
  cbn [String.append String.length substring Color.allChars].
  rewrite Hr1, Hr2, Hg1, Hg2, Hb1, Hb2.
  repeat split; assumption.
Qed.

Lemma RgbToHexString_round_trip_default :
  (0 <= 0 <= 255 /\ 0 <= 194 <= 255 /\ 0 <= 203 <= 255) /\
  Color.RgbToHexString 0 194 203 = "00c2cb"%string /\
  Color.parseHex (substring 2 2 (Color.RgbToHexString 0 194 203))
  = Some 194.
Proof.
  split; [lia|]. split; [reflexivity|].
  apply (RgbToHexString_round_trip 0 194 203); lia.
Defined.

(** ** The crop rectangle *)

(** C3. One advance of the crop rectangle, direction by direction:
    left takes the step's width off the width; right does the same and
    adds it to x; up takes the step's height off the height; down does
    the same and adds it to y.  Every other field keeps its value. *)
Theorem advance_transitions (step : Size.t) (rect : Rectangle.t) :
  let x := Rectangle.X rect in
  let y := Rectangle.Y rect in
  let w := Rectangle.Width rect in
  let h := Rectangle.Height rect in
  advance left step rect = Rectangle.new x y (w - Size.Width step) h /\
  advance right step rect
  = Rectangle.new (x + Size.Width step) y (w - Size.Width step) h /\
  advance up step rect = Rectangle.new x y w (h - Size.Height step) /\
  advance down step rect
  = Rectangle.new x (y + Size.Height step) w (h - Size.Height step).
Proof.
  destruct rect as [[w h] [x y]]. cbn. repeat split; reflexivity.
Qed.

(** [Math_ceil_div] is the least integer whose product with a positive
    divisor reaches the dividend. *)
Lemma Math_ceil_div_eq (a b : Z) :
  0 < b -> Math_ceil_div a b = - ((- a) / b).
Proof.
  intros Hb. unfold Math_ceil_div, Qceiling, Qfloor.
  destruct b as [|b|b]; try lia.
  cbn. f_equal. f_equal; lia.
Qed.

Lemma Math_ceil_div_bounds (a b : Z) :
  0 < b ->
  a <= Math_ceil_div a b * b /\ (Math_ceil_div a b - 1) * b < a.
Proof.
  intros Hb. rewrite Math_ceil_div_eq by assumption.
  pose proof (Z.div_mod (- a) b ltac:(lia)) as E.
  pose proof (Z.mod_pos_bound (- a) b Hb) as M.
  nia.
Qed.


Lemma Math_ceil_div_pos (a b : Z) :
  0 < a -> 0 < b -> 1 <= Math_ceil_div a b.
Proof.
  intros Ha Hb. destruct (Math_ceil_div_bounds a b Hb) as [Hle _]. nia.
Qed.


Lemma advance_new (d : LineDirection) (step : Size.t) (x y w h : Z) :
  advance d step (Rectangle.new x y w h)
  = match d with
    | left => Rectangle.new x y (w - Size.Width step) h
    | right => Rectangle.new (x + Size.Width step) y (w - Size.Width step) h
    | up => Rectangle.new x y w (h - Size.Height step)
    | down => Rectangle.new x (y + Size.Height step) w (h - Size.Height step)
    end.
Proof. destruct d; reflexivity. Qed.

Lemma Rectangle_new_eq (x y w h x' y' w' h' : Z) :
  x = x' -> y = y' -> w = w' -> h = h' ->
  Rectangle.new x y w h = Rectangle.new x' y' w' h'.
Proof. intros; subst; reflexivity. Qed.

Ltac iter_advance IH :=
  rewrite Nat.iter_succ, IH, advance_new, Nat2Z.inj_succ;
  apply Rectangle_new_eq; lia.

Lemma iter_advance_left (step : Size.t) (x y w h : Z) (n : nat) :
  Nat.iter n (advance left step) (Rectangle.new x y w h)
  = Rectangle.new x y (w - Z.of_nat n * Size.Width step) h.
Proof.
  induction n as [|n IH]; [|iter_advance IH].
  cbn [Nat.iter Z.of_nat]. apply Rectangle_new_eq; lia.
Qed.

Lemma iter_advance_right (step : Size.t) (x y w h : Z) (n : nat) :
  Nat.iter n (advance right step) (Rectangle.new x y w h)
  = Rectangle.new (x + Z.of_nat n * Size.Width step) y
                  (w - Z.of_nat n * Size.Width step) h.
Proof.
  induction n as [|n IH]; [|iter_advance IH].
  cbn [Nat.iter Z.of_nat]. apply Rectangle_new_eq; lia.
Qed.

Lemma iter_advance_up (step : Size.t) (x y w h : Z) (n : nat) :
  Nat.iter n (advance up step) (Rectangle.new x y w h)
  = Rectangle.new x y w (h - Z.of_nat n * Size.Height step).
Proof.
  induction n as [|n IH]; [|iter_advance IH].
  cbn [Nat.iter Z.of_nat]. apply Rectangle_new_eq; lia.
Qed.

Lemma iter_advance_down (step : Size.t) (x y w h : Z) (n : nat) :
  Nat.iter n (advance down step) (Rectangle.new x y w h)
  = Rectangle.new x (y + Z.of_nat n * Size.Height step) w
                  (h - Z.of_nat n * Size.Height step).
Proof.
  induction n as [|n IH]; [|iter_advance IH].
  cbn [Nat.iter Z.of_nat]. apply Rectangle_new_eq; lia.
Qed.

(** [Generate] sets [totalFrames] to the product of the rate and the
    length, as the runtime computes it, rounded up to an integer,
    whenever the input file exists. *)
Lemma Generate_totalFrames
      (existsSync : string -> bool) (rev : Revision) (g : BlueLineGenerator) :
  existsSync (Options.input (options g)) = true ->
  exists g',
    Generate existsSync rev g = Returns g' /\
    totalFrames g'
    = Qceiling
        (Number.mul (Options.fps (options g)) (Options.length (options g))) /\
    cropRect g' = cropRect g.
Proof.
  intros He. unfold Generate. rewrite He. cbn [negb].
  destruct rev; eexists; (split; [reflexivity|]); split; reflexivity.
Qed.



(** ** Searching a buffer *)

Lemma startsWith_length (value buf : Buffer.t) :
  Buffer.startsWith value buf = true ->
  (List.length value <= List.length buf)%nat.
Proof.
  revert buf. induction value as [|v vs IH]; intros [|b bs] H; cbn in *;
    try lia; try discriminate.
  apply andb_prop in H. destruct H as [_ H]. apply IH in H. lia.
Qed.

Lemma startsWith_app (value buf more : Buffer.t) :
  Buffer.startsWith value buf = true ->
  Buffer.startsWith value (buf ++ more) = true.
Proof.
  revert buf. induction value as [|v vs IH]; intros [|b bs] H; cbn in *;
    try reflexivity; try discriminate.
  apply andb_prop in H. destruct H as [Hb H].
  rewrite Hb. cbn. now apply IH.
Qed.

Lemma occursAt_inside (value buf : Buffer.t) (p : nat) :
  value <> [] -> occursAt value buf p = true -> (p < List.length buf)%nat.
Proof.
  intros Hv H. unfold occursAt in H. apply startsWith_length in H.
  rewrite length_skipn in H.
  destruct value; [congruence|]. cbn in H. lia.
Qed.

Lemma indexOfFrom_found (value : Buffer.t) (k : nat) :
  forall (buf : Buffer.t) (pos : Z),
    (forall j, (j < k)%nat -> occursAt value buf j = false) ->
    occursAt value buf k = true ->
    Buffer.indexOfFrom value buf pos = pos + Z.of_nat k.
Proof.
  unfold occursAt.
  induction k as [|k IH]; intros buf pos Hno Hyes.
  - cbn in Hyes. destruct buf; cbn; rewrite Hyes; lia.
  - pose proof (Hno 0%nat ltac:(lia)) as H0. cbn in H0.
    destruct buf as [|b rest].
    + cbn in Hyes. congruence.
    + cbn [Buffer.indexOfFrom]. rewrite H0.
      rewrite (IH rest (pos + 1)); [lia| |exact Hyes].
      intros j Hj. apply (Hno (S j)). lia.
Qed.

Lemma indexOfFrom_none (value : Buffer.t) :
  forall (buf : Buffer.t) (pos : Z),
    (forall j, occursAt value buf j = false) ->
    Buffer.indexOfFrom value buf pos = -1.
Proof.
  unfold occursAt.
  induction buf as [|b rest IH]; intros pos Hno.
  - pose proof (Hno 0%nat) as H0. cbn in H0. cbn. now rewrite H0.
  - pose proof (Hno 0%nat) as H0. cbn in H0.
    cbn [Buffer.indexOfFrom]. rewrite H0. apply IH.
    intros j. apply (Hno (S j)).
Qed.

Lemma indexOf_found (buf value : Buffer.t) (off p : nat) :
  value <> [] -> (off <= p)%nat ->
  occursAt value buf p = true ->
  (forall q, (off <= q < p)%nat -> occursAt value buf q = false) ->
  Buffer.indexOf buf value (Z.of_nat off) = Z.of_nat p.
Proof.
  intros Hv Hle Hyes Hno.
  pose proof (occursAt_inside value buf p Hv Hyes) as Hp.
  unfold Buffer.indexOf.
  replace (Z.of_nat off <? 0) with false by (symmetry; apply Z.ltb_ge; lia).
  replace (Z.of_nat (List.length buf) <? Z.of_nat off) with false
    by (symmetry; apply Z.ltb_ge; lia).
  rewrite Nat2Z.id.
  rewrite (indexOfFrom_found value (p - off)).
  - lia.
  - intros j Hj. unfold occursAt. rewrite skipn_skipn.
    apply Hno. lia.
  - unfold occursAt. rewrite skipn_skipn.
    replace (p - off + off)%nat with p by lia. exact Hyes.
Qed.

Lemma indexOf_none (buf value : Buffer.t) (off : nat) :
  (forall q, (off <= q)%nat -> occursAt value buf q = false) ->
  Buffer.indexOf buf value (Z.of_nat off) = -1.
Proof.
  intros Hno. unfold Buffer.indexOf.
  replace (Z.of_nat off <? 0) with false by (symmetry; apply Z.ltb_ge; lia).
  destruct (Z.of_nat (List.length buf) <? Z.of_nat off); [reflexivity|].
  rewrite Nat2Z.id. apply indexOfFrom_none.
  intros j. unfold occursAt. rewrite skipn_skipn. apply Hno. lia.
Qed.

Lemma slice_between (pre image post : Buffer.t) :
  Buffer.slice (pre ++ image ++ post) (Z.of_nat (List.length pre))
               (Some (Z.of_nat (List.length pre + List.length image)))
  = image.
Proof.
  unfold Buffer.slice, Buffer.clamp.
  rewrite !length_app.
  replace (Z.of_nat (List.length pre) <? 0) with false
    by (symmetry; apply Z.ltb_ge; lia).
  replace (Z.of_nat (List.length pre + List.length image) <? 0) with false
    by (symmetry; apply Z.ltb_ge; lia).
  rewrite !Z.min_l by lia.
  rewrite Nat2Z.id.
  replace (Z.to_nat (Z.of_nat (List.length pre + List.length image)
                     - Z.of_nat (List.length pre)))
    with (List.length image) by lia.
  rewrite skipn_app, skipn_all, Nat.sub_diag. cbn [skipn app].
  rewrite firstn_app, firstn_all, Nat.sub_diag. cbn [firstn].
  apply app_nil_r.
Qed.

Lemma slice_to_end (pre image : Buffer.t) :
  Buffer.slice (pre ++ image) (Z.of_nat (List.length pre)) None = image.
Proof.
  unfold Buffer.slice, Buffer.clamp.
  rewrite !length_app.
  replace (Z.of_nat (List.length pre) <? 0) with false
    by (symmetry; apply Z.ltb_ge; lia).
  rewrite !Z.min_l by lia.
  rewrite Nat2Z.id.
  replace (Z.to_nat (Z.of_nat (List.length pre + List.length image)
                     - Z.of_nat (List.length pre)))
    with (List.length image) by lia.
  rewrite skipn_app, skipn_all, Nat.sub_diag. cbn [skipn app].
  apply firstn_all.
Qed.

(** ** Frame extraction *)

Lemma startsFrom_ge (images : list Buffer.t) :
  forall (base q : nat), In q (startsFrom base images) -> (base <= q)%nat.
Proof.
  induction images as [|image images IH]; intros base q H; cbn in H.
  - contradiction.
  - destruct H as [H|H]; [lia|]. apply IH in H. lia.
Qed.

Lemma magicNumberOf_not_nil (frameCodec : FrameCodec) :
  magicNumberOf frameCodec <> [].
Proof. destruct frameCodec; discriminate. Qed.

(** An occurrence of the magic number that the search after one start
    can meet is none of that start's. *)
Lemma past_first_start (m base q : nat) (starts : list nat) :
  (0 < m)%nat -> (base + m <= q)%nat ->
  In q (base :: starts) \/ insideMagic m (base :: starts) q ->
  In q starts \/ insideMagic m starts q.
Proof.
  intros Hm Hq [[H|H]|(s & [H|H] & Hs)].
  - lia.
  - now left.
  - lia.
  - right. exists s. now split.
Qed.

(** The loop from the start of an image on: the image and all that
    follow are pushed, as long as the magic number occurs nowhere the
    search goes but where the following images begin. *)
Lemma scan_images (magicNumber : Buffer.t) (rest : list Buffer.t) :
  magicNumber <> [] ->
  forall (pre image : Buffer.t) (acc : list Buffer.t) (fuel : nat),
    let stdout := pre ++ image ++ List.concat rest in
    let starts := startsFrom (List.length pre + List.length image) rest in
    Buffer.startsWith magicNumber image = true ->
    Forall (fun i => Buffer.startsWith magicNumber i = true) rest ->
    (forall q, (List.length pre + List.length magicNumber <= q)%nat ->
               occursAt magicNumber stdout q = true ->
               In q starts \/ insideMagic (List.length magicNumber) starts q) ->
    (List.length rest < fuel)%nat ->
    scan fuel stdout magicNumber (Z.of_nat (List.length pre))
         (Buffer.indexOf stdout magicNumber
            (Z.of_nat (List.length pre)
             + Z.of_nat (List.length magicNumber)))
         acc
    = Some (acc ++ image :: rest).
Proof.
  intros Hm.
  assert (0 < List.length magicNumber)%nat as Hm0
      by (destruct magicNumber; [congruence|cbn; lia]).
  induction rest as [|next rest IH];
    intros pre image acc fuel stdout starts Himg Hrest Hocc Hfuel;
    (destruct fuel as [|fuel]; [cbn in Hfuel; lia|]);
    pose proof (startsWith_length _ _ Himg) as Hlen;
    rewrite <- Nat2Z.inj_add; cbn [scan];
    replace (Z.of_nat (List.length pre) =? -1) with false
      by (symmetry; apply Z.eqb_neq; lia).
  - rewrite indexOf_none.
    + cbn [Z.eqb negb]. subst stdout. cbn [List.concat].
      rewrite app_nil_r, slice_to_end. reflexivity.
    + intros q Hq.
      destruct (occursAt magicNumber stdout q) eqn:E; [|reflexivity].
      exfalso. destruct (Hocc q Hq E) as [[]|(s & [] & _)].
  - set (p := (List.length pre + List.length image)%nat) in *.
    inversion Hrest as [|? ? Hnext Hrest']; subst.
    assert (occursAt magicNumber stdout p = true) as Hp.
    { unfold occursAt. subst stdout p. rewrite app_assoc.
      rewrite skipn_app, skipn_all2 by (rewrite length_app; lia).
      rewrite length_app, Nat.sub_diag. cbn [skipn app List.concat].
      now apply startsWith_app. }
    rewrite (indexOf_found stdout magicNumber _ p Hm); [|lia|exact Hp|].
    + replace (Z.of_nat p =? -1) with false
        by (symmetry; apply Z.eqb_neq; lia).
      cbn [negb].
      replace (Buffer.slice stdout (Z.of_nat (List.length pre))
                            (Some (Z.of_nat p))) with image
        by (subst stdout p; symmetry; apply slice_between).
      specialize (IH (pre ++ image) next (acc ++ [image]) fuel).
      cbv zeta in IH. rewrite length_app in IH. fold p in IH.
      replace ((pre ++ image) ++ next ++ List.concat rest) with stdout in IH
        by (subst stdout; cbn [List.concat]; now rewrite app_assoc).
      rewrite IH; [now rewrite <- app_assoc|exact Hnext|exact Hrest'| |].
      * intros q Hq Hqo.
        apply (past_first_start _ p); [exact Hm0|exact Hq|].
        apply Hocc; [lia|exact Hqo].
      * cbn in Hfuel. lia.
    + intros q Hq.
      destruct (occursAt magicNumber stdout q) eqn:E; [|reflexivity].
      exfalso. subst starts. cbn [startsFrom] in Hocc. fold p in Hocc.
      destruct (Hocc q ltac:(lia) E) as [[H|H]|(s & [H|H] & Hs)];
        try lia; apply startsFrom_ge in H; lia.
Qed.

Lemma concat_length_ge (magicNumber : Buffer.t) (images : list Buffer.t) :
  magicNumber <> [] ->
  Forall (fun i => Buffer.startsWith magicNumber i = true) images ->
  (List.length images <= List.length (List.concat images))%nat.
Proof.
  intros Hm H. induction H as [|image images Himg _ IH]; cbn; [lia|].
  apply startsWith_length in Himg. rewrite length_app.
  destruct magicNumber; [congruence|]. cbn in Himg. lia.
Qed.

(** C1. A buffer made of k images laid end to end, each beginning with
    the magic number of the codec, the magic number occurring nowhere
    else that the scan searches (nowhere but at the start of an image
    or within the magic number that opens one), is split into exactly
    these k images, in order and byte for byte; a buffer in which the
    magic number does not occur gives the empty list. *)
Theorem extractFrames_concatenated
        (frameCodec : FrameCodec) (images : list Buffer.t) :
  Forall (fun image =>
            Buffer.startsWith (magicNumberOf frameCodec) image = true)
         images ->
  (forall p,
      occursAt (magicNumberOf frameCodec) (List.concat images) p = true ->
      In p (startsFrom 0 images) \/
      insideMagic (List.length (magicNumberOf frameCodec))
                  (startsFrom 0 images) p) ->
  extractFrames frameCodec (List.concat images) = Some images /\
  (forall stdout : Buffer.t,
      (forall p, occursAt (magicNumberOf frameCodec) stdout p = false) ->
      extractFrames frameCodec stdout = Some []).
Proof.
  intros Himgs Hocc.
  pose proof (magicNumberOf_not_nil frameCodec) as Hm.
  split.
  - unfold extractFrames.
    destruct images as [|image rest].
    + cbn [List.concat List.length]. destruct frameCodec; reflexivity.
    + inversion Himgs as [|? ? Himg Hrest]; subst.
      assert (Buffer.indexOf (List.concat (image :: rest))
                             (magicNumberOf frameCodec) 0 = 0) as E0.
      { apply (indexOf_found _ _ 0 0 Hm); [lia| |intros q Hq; lia].
        unfold occursAt. cbn [skipn List.concat]. now apply startsWith_app. }
      rewrite E0.
      pose proof (scan_images (magicNumberOf frameCodec) rest Hm
                              [] image []) as H.
      cbv zeta in H. cbn [app List.length Nat.add Z.of_nat] in H.
      cbn [List.concat]. apply H; [exact Himg|exact Hrest| |].
      * intros q Hq Hqo.
        apply (past_first_start _ 0); [|exact Hq|].
        -- destruct (magicNumberOf frameCodec); [congruence|cbn; lia].
        -- apply (Hocc q Hqo).
      * pose proof (concat_length_ge _ _ Hm Himgs) as Hl.
        cbn [List.concat List.length] in Hl. lia.
  - intros stdout Hno. unfold extractFrames.
    rewrite (indexOf_none stdout _ 0) by (intros; apply Hno).
    reflexivity.
Qed.

Lemma extractFrames_two_images :
  let first := [xff; xd8; xff; xe0; x00; xff; xd9] in
  let second := [xff; xd8; xff; xe0; x01] in
  extractFrames mjpeg (first ++ second) = Some [first; second].
Proof.
  intros first second.
  refine (proj1 (extractFrames_concatenated mjpeg [first; second] _ _)).
  - repeat constructor.
  - intros p H.
    do 12 (destruct p as [|p];
           [vm_compute in H; try discriminate H; left; vm_compute; tauto|]).
    unfold occursAt in H. subst first second.
    cbn [List.concat app skipn] in H. rewrite skipn_nil in H.
    discriminate H.
Defined.

(** Without the condition on the magic number the statement of C1
    fails.  Two images are laid end to end, each beginning with the
    JPEG magic number, the first one holding it once more further in,
    as a file with an embedded thumbnail does: the scan cuts the first
    image there and returns three frames, not the two images. *)
Lemma extractFrames_cuts_inside_image :
  let first := [xff; xd8; xff; xe1; xff; xd8; xff; xdb; x00; xff; xd9] in
  let second := [xff; xd8; xff; xe0; x01] in
  Forall (fun image =>
            Buffer.startsWith (magicNumberOf mjpeg) image = true)
         [first; second] /\
  extractFrames mjpeg (List.concat [first; second])
  = Some [[xff; xd8; xff; xe1];
          [xff; xd8; xff; xdb; x00; xff; xd9];
          second] /\
  extractFrames mjpeg (List.concat [first; second]) <> Some [first; second].
Proof.
  split; [repeat constructor|].
  split; [reflexivity|]. intros H. vm_compute in H. discriminate H.
Qed.

(** Two frames can come back for two images and still not be the
    images: here the first image ends with the first two bytes of the
    magic number, and the cut falls before them. *)
Example extractFrames_cut_across_images :
  let first := [xff; xd8; xff; x00; xff; xd8] in
  let second := [xff; xd8; xff; x01] in
  extractFrames mjpeg (first ++ second)
  = Some [[xff; xd8; xff; x00]; [xff; xd8; xff; xd8; xff; x01]].
Proof. reflexivity. Qed.

(** The scan looks at boundaries only: an image that holds the magic
    number a second time is cut there. *)
Example extractFrames_embedded_magic :
  extractFrames mjpeg [xff; xd8; xff; x00; xff; xd8; xff; x01]
  = Some [[xff; xd8; xff; x00]; [xff; xd8; xff; x01]].
Proof. reflexivity. Qed.

(** The magic number met again within the three bytes that open an
    image is not searched for, and does no harm. *)
Example extractFrames_magic_within_magic :
  let first := [xff; xd8; xff; xd8; xff; x00] in
  let second := [xff; xd8; xff; xe0; x01] in
  extractFrames mjpeg (first ++ second) = Some [first; second].
Proof. reflexivity. Qed.

(** Bytes before the first magic number belong to no frame. *)
Example extractFrames_leading_bytes :
  extractFrames png [x00; x01; x89; x50; x4e; x47; x0d]
  = Some [[x89; x50; x4e; x47; x0d]].
Proof. reflexivity. Qed.

Lemma indexOf_range (buf value : Buffer.t) (off : Z) :
  value <> [] -> 0 <= off ->
  Buffer.indexOf buf value off = -1 \/
  off <= Buffer.indexOf buf value off < Z.of_nat (List.length buf).
Proof.
  intros Hv Hoff. unfold Buffer.indexOf.
  replace (off <? 0) with false by (symmetry; apply Z.ltb_ge; lia).
  destruct (Z.of_nat (List.length buf) <? off) eqn:E; [now left|].
  apply Z.ltb_ge in E.
  set (rest := skipn (Z.to_nat off) buf).
  assert (off + Z.of_nat (List.length rest) = Z.of_nat (List.length buf))
    as Hlen by (subst rest; rewrite length_skipn; lia).
  clearbody rest. revert off Hoff E Hlen.
  induction rest as [|b rest IH]; intros off Hoff E Hlen.
  - left. destruct value; [congruence|]. reflexivity.
  - cbn [Buffer.indexOfFrom].
    destruct (Buffer.startsWith value (b :: rest)).
    + right. cbn [List.length] in Hlen. lia.
    + cbn [List.length] in Hlen.
      destruct (IH (off + 1)) as [H|H]; lia.
Qed.

(** The loop always ends within the fuel [extractFrames] gives it. *)
Lemma scan_total (stdout magicNumber : Buffer.t) :
  magicNumber <> [] ->
  forall (fuel : nat) (startIndex : Z) (acc : list Buffer.t),
    startIndex = -1 \/ 0 <= startIndex < Z.of_nat (List.length stdout) ->
    (0 <= startIndex ->
     Z.of_nat (List.length stdout) - startIndex < Z.of_nat fuel) ->
    (startIndex = -1 -> (0 < fuel)%nat) ->
    exists frameImages,
      scan fuel stdout magicNumber startIndex
           (Buffer.indexOf stdout magicNumber
              (startIndex + Z.of_nat (List.length magicNumber)))
           acc
      = Some frameImages.
Proof.
  intros Hm.
  induction fuel as [|fuel IH]; intros startIndex acc Hs Hfuel Hone.
  - destruct Hs as [Hs|Hs]; [specialize (Hone Hs)|]; lia.
  - cbn [scan].
    destruct (startIndex =? -1) eqn:E; [eauto|].
    apply Z.eqb_neq in E. destruct Hs as [Hs|Hs]; [lia|].
    destruct (indexOf_range stdout magicNumber
                (startIndex + Z.of_nat (List.length magicNumber)) Hm
                ltac:(lia)) as [H|H].
    + rewrite H, Z.eqb_refl. cbn [negb]. eauto.
    + set (endIndex := Buffer.indexOf stdout magicNumber
                         (startIndex + Z.of_nat (List.length magicNumber)))
        in *.
      replace (endIndex =? -1) with false
        by (symmetry; apply Z.eqb_neq; lia).
      cbn [negb]. apply IH; [right; lia| |lia].
      destruct magicNumber; [congruence|]. cbn [List.length] in H. lia.
Qed.

Lemma extractFrames_total (frameCodec : FrameCodec) (stdout : Buffer.t) :
  exists frameImages, extractFrames frameCodec stdout = Some frameImages.
Proof.
  unfold extractFrames.
  pose proof (magicNumberOf_not_nil frameCodec) as Hm.
  apply scan_total; [exact Hm| |lia|lia].
  destruct (indexOf_range stdout (magicNumberOf frameCodec) 0 Hm
                          ltac:(lia)) as [H|H]; [now left|right; lia].
Qed.

(** ** The frames, one after the other *)

Lemma strokes_app (a b : list Event) :
  strokes (a ++ b) = strokes a ++ strokes b.
Proof. apply flat_map_app. Qed.

Lemma clips_app (a b : list Event) : clips (a ++ b) = clips a ++ clips b.
Proof. apply flat_map_app. Qed.

Lemma handled_app (a b : list Event) :
  handled (a ++ b) = handled a ++ handled b.
Proof. apply flat_map_app. Qed.

(** Projections of updated generators, computed with sharing. *)
(** Every update, written out on the fields. *)
Lemma set_totalFrames_eq v (g : BlueLineGenerator) :
  set_totalFrames v g
  = mk (options g) v (frameImages g) (effectCanvas g)
       (outputCanvas g) (currentFrameNum g) (cropRect g)
       (cropRectShrinkSize g) (events g).
Proof. reflexivity. Qed.

Lemma set_frameImages_eq v (g : BlueLineGenerator) :
  set_frameImages v g
  = mk (options g) (totalFrames g) v (effectCanvas g)
       (outputCanvas g) (currentFrameNum g) (cropRect g)
       (cropRectShrinkSize g) (events g).
Proof. reflexivity. Qed.

Lemma set_effectCanvas_eq v (g : BlueLineGenerator) :
  set_effectCanvas v g
  = mk (options g) (totalFrames g) (frameImages g) v
       (outputCanvas g) (currentFrameNum g) (cropRect g)
       (cropRectShrinkSize g) (events g).
Proof. reflexivity. Qed.

Lemma set_outputCanvas_eq v (g : BlueLineGenerator) :
  set_outputCanvas v g
  = mk (options g) (totalFrames g) (frameImages g) (effectCanvas g)
       v (currentFrameNum g) (cropRect g)
       (cropRectShrinkSize g) (events g).
Proof. reflexivity. Qed.

Lemma set_currentFrameNum_eq v (g : BlueLineGenerator) :
  set_currentFrameNum v g
  = mk (options g) (totalFrames g) (frameImages g) (effectCanvas g)
       (outputCanvas g) v (cropRect g)
       (cropRectShrinkSize g) (events g).
Proof. reflexivity. Qed.

Lemma set_cropRect_eq v (g : BlueLineGenerator) :
  set_cropRect v g
  = mk (options g) (totalFrames g) (frameImages g) (effectCanvas g)
       (outputCanvas g) (currentFrameNum g) v
       (cropRectShrinkSize g) (events g).
Proof. reflexivity. Qed.

Lemma set_cropRectShrinkSize_eq v (g : BlueLineGenerator) :
  set_cropRectShrinkSize v g
  = mk (options g) (totalFrames g) (frameImages g) (effectCanvas g)
       (outputCanvas g) (currentFrameNum g) (cropRect g)
       v (events g).
Proof. reflexivity. Qed.

Lemma emit_eq (e : Event) (g : BlueLineGenerator) :
  emit e g
  = mk (options g) (totalFrames g) (frameImages g) (effectCanvas g)
       (outputCanvas g) (currentFrameNum g) (cropRect g)
       (cropRectShrinkSize g) (events g ++ [e]).
Proof. reflexivity. Qed.

(** The fields of an updated generator, one update at a time. *)
Ltac fields :=
  repeat
    first
      [ progress
          cbn [options totalFrames frameImages effectCanvas outputCanvas
               currentFrameNum cropRect cropRectShrinkSize events
               fst snd negb]
      | rewrite emit_eq
      | rewrite set_totalFrames_eq
      | rewrite set_frameImages_eq
      | rewrite set_effectCanvas_eq
      | rewrite set_outputCanvas_eq
      | rewrite set_currentFrameNum_eq
      | rewrite set_cropRect_eq
      | rewrite set_cropRectShrinkSize_eq ].

Section Frames.

Variable loadImage : Buffer.t -> option Image.

(** A frame after the first: nothing but the trace and the rectangle
    changes. *)
Lemma DoEffectSingleFrame_later
      (g : BlueLineGenerator) (frame : Buffer.t) (image : Image) :
  loadImage frame = Some image ->
  Size.Width (effectCanvas g) <> 0 ->
  let d := Options.lineDirection (options g) in
  DoEffectSingleFrame loadImage g (Some frame)
  = (mk (options g) (totalFrames g) (frameImages g) (effectCanvas g)
        (outputCanvas g) (currentFrameNum g)
        (advance d (cropRectShrinkSize g) (cropRect g))
        (cropRectShrinkSize g)
        (events g ++
           [ConsoleInfo ("Frame #" ++ decimal (currentFrameNum g));
            DrawImage (cropRect g);
            ClearRect (Size.Width (outputCanvas g))
                      (Size.Width (outputCanvas g));
            DrawEffectCanvas;
            StrokeLine (fst (line d (cropRect g))) (snd (line d (cropRect g)));
            StdinWrite]),
     true).
Proof.
  intros Hload Hw d. unfold DoEffectSingleFrame. fields.
  rewrite Hload.
  replace (Size.Width (effectCanvas g) =? 0) with false
    by (symmetry; now apply Z.eqb_neq).
  subst d. fields. destruct (line _ (cropRect g)) as [moveTo lineTo].
  fields. rewrite <- !app_assoc. reflexivity.
Qed.

(** The first frame: the canvases take its size, the stroke is set up,
    the rectangle becomes the full frame and the step is fixed. *)
Lemma DoEffectSingleFrame_first
      (g : BlueLineGenerator) (frame : Buffer.t) (image : Image)
      (strokeStyle : string) :
  loadImage frame = Some image ->
  Size.Width (effectCanvas g) = 0 ->
  strokeStyleOf (Options.lineColor (options g)) = Some strokeStyle ->
  let d := Options.lineDirection (options g) in
  let first :=
    firstFrameCrop d (totalFrames g) image (cropRect g)
                   (cropRectShrinkSize g) in
  DoEffectSingleFrame loadImage g (Some frame)
  = (mk (options g) (totalFrames g) (frameImages g)
        (Size.new (width image) (height image))
        (Size.new (width image) (height image))
        (currentFrameNum g)
        (advance d (snd first) (fst first))
        (snd first)
        (events g ++
           [ConsoleInfo ("Frame #" ++ decimal (currentFrameNum g));
            StrokeProperties strokeStyle 8 15;
            DrawImage (fst first);
            ClearRect (width image) (width image);
            DrawEffectCanvas;
            StrokeLine (fst (line d (fst first))) (snd (line d (fst first)));
            StdinWrite]),
     true).
Proof.
  intros Hload Hw Hstyle d first. unfold DoEffectSingleFrame, firstFrame.
  subst d first. fields. rewrite Hload. fields. rewrite Hw. cbn [Z.eqb].
  fields. rewrite Hstyle. fields.
  destruct (firstFrameCrop _ _ _ _ _) as [rect step].
  fields. destruct (line _ rect) as [moveTo lineTo].
  fields. cbn [Size.Width]. rewrite <- !app_assoc. reflexivity.
Qed.

(** Whatever the frame, a call leaves the frames, the frame counter
    and the calls of the error handler as they were. *)
Lemma DoEffectSingleFrame_keeps
      (g : BlueLineGenerator) (frame : option Buffer.t) :
  let g' := fst (DoEffectSingleFrame loadImage g frame) in
  frameImages g' = frameImages g /\
  currentFrameNum g' = currentFrameNum g /\
  handled (events g') = handled (events g).
Proof.
  unfold DoEffectSingleFrame, firstFrame.
  destruct frame as [frame|]; cbn;
    [|rewrite handled_app, app_nil_r; auto].
  destruct (loadImage frame) as [image|]; cbn;
    [|rewrite !handled_app, !app_nil_r; auto].
  destruct (Size.Width (effectCanvas g) =? 0); cbn.
  - destruct (strokeStyleOf (Options.lineColor (options g))); cbn.
    + destruct (firstFrameCrop _ _ _ _ _) as [rect step]. cbn.
      destruct (line _ _). cbn. rewrite !handled_app, !app_nil_r. auto.
    + rewrite !handled_app, !app_nil_r. auto.
  - destruct (line _ _). cbn. rewrite !handled_app, !app_nil_r. auto.
Qed.

Lemma GetNextFrame_some
      (g : BlueLineGenerator) (done rest : list Buffer.t) (frame : Buffer.t) :
  frameImages g = done ++ frame :: rest ->
  currentFrameNum g = Z.of_nat (List.length done) ->
  GetNextFrame g
  = (Some frame, set_currentFrameNum (currentFrameNum g + 1) g).
Proof.
  intros Hf Hc. unfold GetNextFrame.
  rewrite Hf, Hc, length_app. cbn [List.length].
  replace (Z.of_nat (List.length done + S (List.length rest))
           <=? Z.of_nat (List.length done)) with false
    by (symmetry; apply Z.leb_gt; lia).
  replace (Z.of_nat (List.length done) <? 0) with false
    by (symmetry; apply Z.ltb_ge; lia).
  rewrite Nat2Z.id, nth_error_app2, Nat.sub_diag by lia.
  reflexivity.
Qed.

Lemma GetNextFrame_none (g : BlueLineGenerator) :
  currentFrameNum g = Z.of_nat (List.length (frameImages g)) ->
  GetNextFrame g = (None, g).
Proof.
  intros Hc. unfold GetNextFrame. rewrite Hc, Z.leb_refl. reflexivity.
Qed.

(** From a frame after the first to the end: one rectangle drawn and
    one line stroked for every frame left, each with the rectangle as
    the advances before it left it. *)
Lemma frameChain_later (rest : list Buffer.t) :
  forall (done : list Buffer.t) (g : BlueLineGenerator) (fuel : nat),
    frameImages g = done ++ rest ->
    currentFrameNum g = Z.of_nat (List.length done) ->
    Forall (fun frame => loadImage frame <> None) rest ->
    Size.Width (effectCanvas g) <> 0 ->
    (List.length rest < fuel)%nat ->
    let d := Options.lineDirection (options g) in
    let rectBefore (i : nat) :=
      Nat.iter i (advance d (cropRectShrinkSize g)) (cropRect g) in
    exists g',
      frameChain loadImage fuel g = Returns g' /\
      clips (events g')
      = clips (events g) ++ map rectBefore (seq 0 (List.length rest)) /\
      strokes (events g')
      = strokes (events g)
        ++ map (fun i => line d (rectBefore i)) (seq 0 (List.length rest)).
Proof.
  induction rest as [|frame rest IH];
    intros done g fuel Hf Hc Hload Hw Hfuel d rectBefore;
    (destruct fuel as [|fuel]; [cbn in Hfuel; lia|]); cbn [frameChain].
  - rewrite app_nil_r in Hf.
    rewrite GetNextFrame_none by (rewrite Hc, Hf; reflexivity).
    cbn [DoEffectSingleFrame]. eexists. split; [reflexivity|].
    fields. rewrite clips_app, strokes_app. cbn. auto.
  - rewrite (GetNextFrame_some g done rest frame Hf Hc).
    inversion Hload as [|? ? Hframe Hrest]; subst.
    destruct (loadImage frame) as [image|] eqn:E; [|congruence].
    rewrite (DoEffectSingleFrame_later _ frame image E) by exact Hw.
    fields.
    match goal with
    | |- context [frameChain loadImage fuel ?g1] =>
        destruct (IH (done ++ [frame]) g1 fuel) as (g' & Hrun & Hc' & Hs')
    end; fields.
    + rewrite Hf, <- app_assoc. reflexivity.
    + rewrite Hc, length_app. cbn [List.length]. lia.
    + exact Hrest.
    + exact Hw.
    + cbn [List.length] in Hfuel. lia.
    + exists g'. split; [exact Hrun|].
      cbn [options cropRect cropRectShrinkSize events] in Hc', Hs'.
      rewrite Hc', Hs', clips_app, strokes_app.
      subst d rectBefore. cbn [List.length seq map].
      rewrite <- seq_shift, !map_map.
      cbn [clips strokes flat_map app]. rewrite <- surjective_pairing.
      rewrite <- !app_assoc. cbn [app Nat.iter].
      split; do 2 f_equal; apply map_ext; intros i;
        rewrite Nat.iter_succ_r; reflexivity.
Qed.

(** The chain of frames always comes to its end. *)
Lemma frameChain_total (fuel : nat) :
  forall g : BlueLineGenerator,
    (List.length (frameImages g) - Z.to_nat (currentFrameNum g) < fuel)%nat ->
    exists g',
      frameChain loadImage fuel g = Returns g' /\
      frameImages g' = frameImages g /\
      handled (events g') = handled (events g).
Proof.
  induction fuel as [|fuel IH]; intros g Hfuel; [lia|].
  cbn [frameChain]. unfold GetNextFrame.
  destruct (Z.of_nat (List.length (frameImages g)) <=? currentFrameNum g)
           eqn:E.
  - cbn [DoEffectSingleFrame]. eexists. split; [reflexivity|].
    fields. rewrite handled_app, app_nil_r. auto.
  - apply Z.leb_gt in E.
    set (g1 := set_currentFrameNum (currentFrameNum g + 1) g).
    pose proof (DoEffectSingleFrame_keeps g1) as K.
    destruct (currentFrameNum g <? 0) eqn:N.
    + specialize (K None). cbn [DoEffectSingleFrame fst] in *.
      eexists. split; [reflexivity|]. exact (conj (proj1 K) (proj2 (proj2 K))).
    + apply Z.ltb_ge in N.
      set (frame := nth_error (frameImages g) (Z.to_nat (currentFrameNum g))).
      specialize (K frame). cbv zeta in K.
      destruct (DoEffectSingleFrame loadImage g1 frame) as [g2 again].
      cbn [fst] in K. destruct K as (Kf & Kc & Kh).
      destruct again.
      * destruct (IH g2) as (g' & Hrun & Hf & Hh).
        -- rewrite Kf, Kc. subst g1. fields. lia.
        -- exists g'. split; [exact Hrun|]. rewrite Hf, Hh, Kf, Kh. auto.
      * exists g2. auto.
Qed.

(** The loop of blueline.ts leaves the frames and the calls of the
    error handler as they were. *)
Lemma forFrames_keeps (frames : list Buffer.t) :
  forall g : BlueLineGenerator,
    frameImages (forFrames loadImage g frames) = frameImages g /\
    handled (events (forFrames loadImage g frames)) = handled (events g).
Proof.
  induction frames as [|frame frames IH]; intros g; cbn [forFrames].
  - fields. rewrite handled_app, app_nil_r. auto.
  - destruct (loadImage frame) as [image|].
    + match goal with
      | |- context [forFrames loadImage ?g1 frames] =>
          destruct (IH g1) as [Hf Hh]; rewrite Hf, Hh
      end.
      destruct (Size.Width (effectCanvas g) =? 0); fields.
      * destruct (firstFrameCrop _ _ _ _ _) as [rect step]. fields.
        rewrite !handled_app, !app_nil_r. auto.
      * rewrite !handled_app, !app_nil_r. auto.
    + fields. rewrite handled_app, app_nil_r. auto.
Qed.

(** [DoEffect] returns, in both revisions, with the frames it was
    given and without a call of the error handler. *)
Lemma DoEffect_total (rev : Revision) (g : BlueLineGenerator) :
  exists g',
    DoEffect loadImage rev g = Returns g' /\
    frameImages g' = frameImages g /\
    handled (events g') = handled (events g).
Proof.
  unfold DoEffect. destruct rev.
  - eexists. split; [reflexivity|].
    match goal with
    | |- context [forFrames loadImage ?g1 ?fs] =>
        destruct (forFrames_keeps fs g1) as [Hf Hh]; rewrite Hf, Hh
    end.
    fields. rewrite !handled_app, !app_nil_r. auto.
  - match goal with
    | |- context [frameChain loadImage ?fuel ?g1] =>
        destruct (frameChain_total fuel g1) as (g' & Hrun & Hf & Hh)
    end.
    + fields. lia.
    + exists g'. split; [exact Hrun|]. rewrite Hf, Hh. fields.
      rewrite !handled_app, !app_nil_r. auto.
Qed.

End Frames.

(** ** The line *)

Lemma line_right (rect : Rectangle.t) :
  line right rect
  = (Point.new (Rectangle.X rect) 0,
     Point.new (Rectangle.X rect) (Rectangle.Height rect)).
Proof. reflexivity. Qed.

(** C4. With the line going right, frame after frame the line is
    stroked at the x of the crop rectangle as it stands before that
    frame's advance, and this x grows strictly from every frame to the
    next. *)
Theorem right_line_at_crop_x
        (loadImage : Buffer.t -> option Image) (g : BlueLineGenerator)
        (frame : Buffer.t) (frames : list Buffer.t) (image : Image) :
  Options.lineDirection (options g) = right ->
  1 <= totalFrames g ->
  frameImages g = frame :: frames ->
  currentFrameNum g = 0 ->
  strokeStyleOf (Options.lineColor (options g)) <> None ->
  loadImage frame = Some image ->
  1 <= width image ->
  Forall (fun f => loadImage f <> None) frames ->
  let step := Size.new (Math_ceil_div (width image) (totalFrames g)) 0 in
  let rectBefore (i : nat) :=
    Nat.iter i (advance right step)
             (Rectangle.new 0 0 (width image) (height image)) in
  let n := S (List.length frames) in
  exists g',
    DoEffect loadImage part_000 g = Returns g' /\
    clips (events g') = clips (events g) ++ map rectBefore (seq 0 n) /\
    strokes (events g')
    = strokes (events g)
      ++ map (fun i =>
                (Point.new (Rectangle.X (rectBefore i)) 0,
                 Point.new (Rectangle.X (rectBefore i))
                           (Rectangle.Height (rectBefore i))))
             (seq 0 n) /\
    (forall i, Rectangle.X (rectBefore i) = Z.of_nat i * Size.Width step) /\
    (forall i, Rectangle.X (rectBefore i) < Rectangle.X (rectBefore (S i))).
Proof.
  intros Hd Ht Hf Hc Hstyle Hload Hw Hrest step rectBefore n.
  destruct (strokeStyleOf (Options.lineColor (options g)))
    as [strokeStyle|] eqn:Es; [clear Hstyle|congruence].
  assert (forall i, Rectangle.X (rectBefore i) = Z.of_nat i * Size.Width step)
    as HX.
  { intros i. subst rectBefore. cbv beta. rewrite iter_advance_right.
    cbn. lia. }
  pose proof (Math_ceil_div_pos (width image) (totalFrames g)
                                ltac:(lia) ltac:(lia)) as Hstep.
  unfold DoEffect. fields. cbn [frameChain]. rewrite Hf.
  match goal with
  | |- context [GetNextFrame ?g0] =>
      rewrite (GetNextFrame_some g0 [] frames frame eq_refl Hc)
  end.
  fields.
  erewrite DoEffectSingleFrame_first;
    [|exact Hload|reflexivity|fields; exact Es].
  fields. rewrite Hd.
  change (firstFrameCrop right (totalFrames g) image
                         (Rectangle.new 0 0 0 0) (Size.new 0 0))
    with (Rectangle.new 0 0 (width image) (height image), step).
  fields.
  match goal with
  | |- context [frameChain loadImage ?fuel ?g1] =>
      destruct (frameChain_later loadImage frames [frame] g1 fuel)
        as (g' & Hrun & Hc' & Hs');
      [ reflexivity
      | cbn [currentFrameNum List.length]; lia
      | exact Hrest
      | cbn [effectCanvas Size.Width]; lia
      | cbn [List.length]; lia
      | ]
  end.
  exists g'. split; [exact Hrun|].
  cbn [options cropRect cropRectShrinkSize events] in Hc', Hs'.
  rewrite Hd in Hc', Hs'.
  rewrite Hc', Hs', !clips_app, !strokes_app.
  subst n. cbn [seq map]. rewrite <- seq_shift, !map_map.
  cbn [clips strokes flat_map app]. rewrite <- surjective_pairing.
  rewrite <- !app_assoc. cbn [app].
  repeat split.
  - do 2 f_equal. apply map_ext. intros i. subst rectBefore. cbv beta.
    rewrite Nat.iter_succ_r. reflexivity.
  - f_equal. f_equal. apply map_ext. intros i. subst rectBefore. cbv beta.
    rewrite Nat.iter_succ_r. reflexivity.
  - exact HX.
  - intros i. rewrite !HX. cbn [Size.Width step]. subst step.
    cbn [Size.Width]. lia.
Qed.

Lemma right_line_two_frames :
  let loadImage := fun _ : Buffer.t => Some {| width := 10; height := 4 |} in
  let g :=
    mk (Options.mk "in.mp4" "out.mp4" "ffmpeg" DEFAULT_MAX_BUFFER 1 right
                   mjpeg [0; 194; 203] 3)
       3 [[xff; xd8; xff; x00]; [xff; xd8; xff; x01]]
       (Size.new 0 0) (Size.new 0 0) 0 (Rectangle.new 0 0 0 0)
       (Size.new 0 0) [] in
  exists g',
    DoEffect loadImage part_000 g = Returns g' /\
    strokes (events g')
    = [(Point.new 0 0, Point.new 0 4); (Point.new 4 0, Point.new 4 4)].
Proof.
  intros loadImage g.
  destruct (right_line_at_crop_x
              loadImage g [xff; xd8; xff; x00] [[xff; xd8; xff; x01]]
              {| width := 10; height := 4 |})
    as (g' & Hrun & _ & Hs & _).
  - reflexivity.
  - cbn. lia.
  - reflexivity.
  - reflexivity.
  - discriminate.
  - reflexivity.
  - cbn. lia.
  - repeat constructor; discriminate.
  - exists g'. split; [exact Hrun|]. rewrite Hs. reflexivity.
Defined.

(** ** Too few frames *)

(** C6. When the decoder ended well, the frames found are kept and
    handed to [DoEffect], which runs to its end on them.  The error
    handler is called exactly once, with a message that names the
    expected and the actual count and the [-l] argument, when fewer
    frames than [totalFrames] were found, and not at all otherwise. *)
Theorem not_enough_frames_reported
        (loadImage : Buffer.t -> option Image) (rev : Revision)
        (g : BlueLineGenerator) (stdout : Buffer.t) :
  exists (frames : list Buffer.t) (g' : BlueLineGenerator),
    let found := Z.of_nat (List.length frames) in
    extractFrames (Options.frameCodec (options g)) stdout = Some frames /\
    OnFfmpegFramesOutputFinished loadImage rev g None stdout = Returns g' /\
    frameImages g' = frames /\
    (exists g1,
        frameImages g1 = frames /\
        DoEffect loadImage rev g1 = Returns g') /\
    (found < totalFrames g ->
     handled (events g')
     = handled (events g) ++ [Text (notEnoughFrames (totalFrames g) found)]) /\
    (totalFrames g <= found -> handled (events g') = handled (events g)) /\
    notEnoughFrames (totalFrames g) found
    = ("Not enough frames were exported to fulfill the length of the effect. Expected "
       ++ decimal (totalFrames g) ++ " but got " ++ decimal found ++ "."
       ++ newline ++ "Specify effect length with the -l argument.")%string.
Proof.
  destruct (extractFrames_total (Options.frameCodec (options g)) stdout)
    as [frames Hframes].
  unfold OnFfmpegFramesOutputFinished. rewrite Hframes.
  rewrite set_frameImages_eq. cbn [frameImages totalFrames].
  exists frames.
  match goal with
  | |- context [DoEffect loadImage rev ?g1] =>
      destruct (DoEffect_total loadImage rev g1) as (g' & Hrun & Hf & Hh);
      exists g'; cbv zeta;
      split; [reflexivity|]; split; [exact Hrun|];
      split; [|split; [exists g1; split; [|exact Hrun]|]]
  end.
  - rewrite Hf. destruct (_ <? _); fields; reflexivity.
  - destruct (_ <? _); fields; reflexivity.
  - rewrite Hh. repeat split.
    + intros Hlt. apply Z.ltb_lt in Hlt. rewrite Hlt. fields.
      rewrite !handled_app, app_nil_r. reflexivity.
    + intros Hge. apply Z.ltb_ge in Hge. rewrite Hge. fields.
      rewrite handled_app, app_nil_r. reflexivity.
Qed.

(** The message of the specification's scenario B. *)
Example notEnoughFrames_250_200 :
  notEnoughFrames 250 200
  = ("Not enough frames were exported to fulfill the length of the effect. Expected 250 but got 200."
     ++ newline ++ "Specify effect length with the -l argument.")%string.
Proof. reflexivity. Qed.

(** ** The constructor *)

(** C8. Without an input path, or without an output path, the
    constructor throws at once, ['No input specified.'] in the first
    case and ['No output specified.'] when only the output is missing;
    the entry point then prints the error and nothing else happens: no
    process is started. *)
Theorem constructor_requires_paths
        (existsSync : string -> bool) (rev : Revision) (options : Raw.t) :
  falsyString (Raw.input options) = true \/
  falsyString (Raw.output options) = true ->
  let message :=
    if falsyString (Raw.input options) then "No input specified."%string
    else "No output specified."%string in
  constructor rev options = Throws (ErrorObject message) /\
  index_try existsSync rev options
  = [ConsoleError ("An error occured: Error: " ++ message)].
Proof.
  intros H message. subst message. unfold index_try, constructor.
  destruct (falsyString (Raw.input options)); [split; reflexivity|].
  destruct H as [H|H]; [discriminate|]. rewrite H. split; reflexivity.
Qed.

Lemma constructor_requires_paths_empty_output :
  constructor part_000
    (Raw.mk (Some "in.mp4"%string) (Some ""%string) None None None None
            None None None)
  = Throws (ErrorObject "No output specified.").
Proof.
  refine (proj1 (constructor_requires_paths
                   (fun _ => true) part_000
                   (Raw.mk (Some "in.mp4"%string) (Some ""%string) None None
                           None None None None None) _)).
  right. reflexivity.
Defined.

(** C9. With both paths given the constructor returns, and every
    falsy option has its default in the stored options: a missing or
    zero [length] becomes 10, a missing or zero [fps] 25, a missing or
    zero [maxBuffer] 50 MiB; a missing or empty codec, direction or
    ffmpeg path becomes ['mjpeg'], ['right'], ['ffmpeg']. *)
Theorem constructor_defaults (rev : Revision) (options : Raw.t) :
  falsyString (Raw.input options) = false ->
  falsyString (Raw.output options) = false ->
  exists g,
    constructor rev options = Returns g /\
    (falsyNumber (Raw.length options) = true ->
     (Options.length (BlueLine.options g) == 10)%Q) /\
    (falsyNumber (Raw.fps options) = true ->
     (Options.fps (BlueLine.options g) == 25)%Q) /\
    (falsyNumber (Raw.maxBuffer options) = true ->
     (Options.maxBuffer (BlueLine.options g)
      == inject_Z (50 * 1024 * 1024))%Q) /\
    (falsyString (Raw.frameCodec options) = true ->
     Options.frameCodec (BlueLine.options g) = mjpeg) /\
    (falsyString (Raw.lineDirection options) = true ->
     Options.lineDirection (BlueLine.options g) = right) /\
    (falsyString (Raw.ffmpegPath options) = true ->
     Options.ffmpegPath (BlueLine.options g) = "ffmpeg"%string) /\
    falsyNumber None = true /\
    (forall q, (q == 0)%Q -> falsyNumber (Some q) = true) /\
    falsyString None = true /\ falsyString (Some ""%string) = true.
Proof.
  intros Hin Hout. unfold constructor. rewrite Hin, Hout.
  eexists. split; [reflexivity|].
  cbn [BlueLine.options Options.length Options.fps Options.maxBuffer
       Options.frameCodec Options.lineDirection Options.ffmpegPath].
  unfold numberOr, choiceOr, stringOr.
  repeat split.
  - intros H. destruct (Raw.length options); [rewrite H|]; reflexivity.
  - intros H. destruct (Raw.fps options); [rewrite H|]; reflexivity.
  - intros H. destruct (Raw.maxBuffer options); [rewrite H|]; reflexivity.
  - intros H. destruct (Raw.frameCodec options); [rewrite H|]; reflexivity.
  - intros H. destruct (Raw.lineDirection options); [rewrite H|]; reflexivity.
  - intros H. destruct (Raw.ffmpegPath options); [rewrite H|]; reflexivity.
  - intros q Hq. cbn [falsyNumber]. apply Qeq_bool_iff. exact Hq.
Qed.

Lemma constructor_defaults_zero_length_zero_fps :
  exists g,
    constructor part_000
      (Raw.mk (Some "in.mp4"%string) (Some "out.mp4"%string) None (Some 0%Q)
              (Some 0%Q) None None None (Some 0%Q))
    = Returns g /\
    (Options.length (BlueLine.options g) == 10)%Q /\
    (Options.fps (BlueLine.options g) == 25)%Q.
Proof.
  destruct (constructor_defaults
              part_000
              (Raw.mk (Some "in.mp4"%string) (Some "out.mp4"%string) None
                      (Some 0%Q) (Some 0%Q) None None None (Some 0%Q))
              eq_refl eq_refl)
    as (g & Hg & Hlength & Hfps & _).
  exists g. split; [exact Hg|].
  split; [apply Hlength|apply Hfps]; reflexivity.
Defined.

(** C7. The default line colour depends on the revision: part_000
    stores the teal (0, 194, 203) when the caller gives no colour,
    blueline.ts stores an empty array. *)
Theorem default_line_color_by_revision (options : Raw.t) :
  falsyString (Raw.input options) = false ->
  falsyString (Raw.output options) = false ->
  falsyObject (Raw.lineColor options) = true ->
  (exists g,
      constructor part_000 options = Returns g /\
      Options.lineColor (BlueLine.options g) = [0; 194; 203]) /\
  (exists g,
      constructor blueline_ts options = Returns g /\
      Options.lineColor (BlueLine.options g) = []).
Proof.
  intros Hin Hout Hcolor. unfold constructor. rewrite Hin, Hout.
  destruct (Raw.lineColor options); [discriminate|].
  split; eexists; split; reflexivity.
Qed.

Lemma default_line_color_blueline_ts :
  exists g,
    constructor blueline_ts
      (Raw.mk (Some "in.mp4"%string) (Some "out.mp4"%string) None None None
              None None None None)
    = Returns g /\
    Options.lineColor (BlueLine.options g) = [].
Proof.
  exact (proj2 (default_line_color_by_revision
                  (Raw.mk (Some "in.mp4"%string) (Some "out.mp4"%string)
                          None None None None None None None)
                  eq_refl eq_refl eq_refl)).
Defined.

(** ** Errors while the effect is produced *)

(** C5. What the handler of a failed write does depends on the
    revision: part_000 ends the encoder's input and then calls the
    error handler, blueline.ts calls the error handler and leaves the
    input open. *)
Theorem OnEffectError_by_revision (g : BlueLineGenerator) (e : string) :
  events (OnEffectError part_000 g (Some e))
  = events g ++ [StdinEnd; ErrorHandler (ErrorObject e)] /\
  events (OnEffectError blueline_ts g (Some e))
  = events g ++ [ErrorHandler (ErrorObject e)].
Proof.
  unfold OnEffectError. fields. rewrite <- app_assoc. split; reflexivity.
Qed.

(** The frames of C1 are what the generator holds when
    [OnFfmpegFramesOutputFinished] has run, in either revision. *)
Lemma OnFfmpegFramesOutputFinished_frames
      (loadImage : Buffer.t -> option Image) (rev : Revision)
      (g : BlueLineGenerator) (stdout : Buffer.t) (frames : list Buffer.t) :
  extractFrames (Options.frameCodec (options g)) stdout = Some frames ->
  exists g',
    OnFfmpegFramesOutputFinished loadImage rev g None stdout = Returns g' /\
    frameImages g' = frames.
Proof.
  intros Hframes. unfold OnFfmpegFramesOutputFinished. rewrite Hframes.
  match goal with
  | |- context [DoEffect loadImage rev ?g1] =>
      destruct (DoEffect_total loadImage rev g1) as (g' & Hrun & Hf & _)
  end.
  exists g'. split; [exact Hrun|]. rewrite Hf.
  destruct (_ <? _); reflexivity.
Qed.

(** * Further properties *)

(** ** Rectangles and their bounds *)

(** X1. The bounding box is an axis-aligned box, and it determines the
    rectangle: position and size read back from its corners give the
    rectangle again. *)
Theorem GetBounds_round_trip (r : Rectangle.t) :
  let b := Rectangle.GetBounds r in
  let tl := BoundingBox.TopLeft b in
  let br := BoundingBox.BottomRight b in
  BoundingBox.TopRight b = Point.new (Point.X br) (Point.Y tl) /\
  BoundingBox.BottomLeft b = Point.new (Point.X tl) (Point.Y br) /\
  Rectangle.new (Point.X tl) (Point.Y tl)
                (Point.X br - Point.X tl) (Point.Y br - Point.Y tl)
  = r.
Proof.
  destruct r as [[w h] [x y]]. cbn. repeat split.
  apply Rectangle_new_eq; lia.
Qed.

(** X2. Each direction keeps one edge of the bounding box where it
    was: left keeps the left edge, right the right edge, up the top
    edge and down the bottom edge. *)
Theorem advance_keeps_far_edge
        (d : LineDirection) (step : Size.t) (r : Rectangle.t) :
  let b := Rectangle.GetBounds r in
  let b' := Rectangle.GetBounds (advance d step r) in
  match d with
  | left =>
      BoundingBox.TopLeft b' = BoundingBox.TopLeft b /\
      BoundingBox.BottomLeft b' = BoundingBox.BottomLeft b
  | right =>
      BoundingBox.TopRight b' = BoundingBox.TopRight b /\
      BoundingBox.BottomRight b' = BoundingBox.BottomRight b
  | up =>
      BoundingBox.TopLeft b' = BoundingBox.TopLeft b /\
      BoundingBox.TopRight b' = BoundingBox.TopRight b
  | down =>
      BoundingBox.BottomLeft b' = BoundingBox.BottomLeft b /\
      BoundingBox.BottomRight b' = BoundingBox.BottomRight b
  end.
Proof.
  destruct r as [[w h] [x y]], step as [sw sh].
  destruct d; cbn; split; f_equal; lia.
Qed.

(** The crop rectangle of frame [i], in closed form. *)
Lemma iter_advance (d : LineDirection) (step : Size.t) (w h : Z) (i : nat) :
  Nat.iter i (advance d step) (Rectangle.new 0 0 w h)
  = match d with
    | left => Rectangle.new 0 0 (w - Z.of_nat i * Size.Width step) h
    | right =>
        Rectangle.new (Z.of_nat i * Size.Width step) 0
                      (w - Z.of_nat i * Size.Width step) h
    | up => Rectangle.new 0 0 w (h - Z.of_nat i * Size.Height step)
    | down =>
        Rectangle.new 0 (Z.of_nat i * Size.Height step) w
                      (h - Z.of_nat i * Size.Height step)
    end.
Proof.
  destruct d;
    [rewrite iter_advance_left | rewrite iter_advance_right
     | rewrite iter_advance_up | rewrite iter_advance_down];
    reflexivity.
Qed.

(** X3. From the full first frame on, the crop rectangle never grows,
    and it lies within the frame for as long as the steps taken do not
    exceed the axis; one step more and its moving dimension is
    negative. *)
Theorem crop_within_frame
        (d : LineDirection) (totalFrames w h : Z) (i : nat) :
  1 <= totalFrames -> 0 <= w -> 0 <= h ->
  let first :=
    firstFrameCrop d totalFrames {| width := w; height := h |}
                   (Rectangle.new 0 0 0 0) (Size.new 0 0) in
  let step := snd first in
  let rectBefore (i : nat) := Nat.iter i (advance d step) (fst first) in
  let axis := match d with left | right => w | up | down => h end in
  let moved :=
    Z.of_nat i * match d with
                 | left | right => Size.Width step
                 | up | down => Size.Height step
                 end in
  Rectangle.Width (rectBefore (S i)) <= Rectangle.Width (rectBefore i) /\
  Rectangle.Height (rectBefore (S i)) <= Rectangle.Height (rectBefore i) /\
  (moved <= axis ->
   0 <= Rectangle.X (rectBefore i) /\
   0 <= Rectangle.Y (rectBefore i) /\
   0 <= Rectangle.Width (rectBefore i) /\
   0 <= Rectangle.Height (rectBefore i) /\
   Rectangle.X (rectBefore i) + Rectangle.Width (rectBefore i) <= w /\
   Rectangle.Y (rectBefore i) + Rectangle.Height (rectBefore i) <= h) /\
  (axis < moved ->
   match d with
   | left | right => Rectangle.Width (rectBefore i) < 0
   | up | down => Rectangle.Height (rectBefore i) < 0
   end).
Proof.
  intros Ht Hw Hh first step rectBefore axis moved.
  assert (0 < totalFrames) as Hpos by lia.
  pose proof (Math_ceil_div_bounds w totalFrames Hpos) as [Bw _].
  pose proof (Math_ceil_div_bounds h totalFrames Hpos) as [Bh _].
  assert (0 <= Math_ceil_div w totalFrames) as Sw by nia.
  assert (0 <= Math_ceil_div h totalFrames) as Sh by nia.
  subst moved axis rectBefore step first.
  destruct d;
    cbn [firstFrameCrop fst snd width height Size.Height Size.Width];
    change (Rectangle.set_Size (Size.new w h) (Rectangle.new 0 0 0 0))
      with (Rectangle.new 0 0 w h);
    rewrite !iter_advance;
    cbn [Rectangle.new Rectangle.Width Rectangle.Height Rectangle.X
         Rectangle.Y Rectangle.Size Rectangle.Position Size.Width
         Size.Height Point.X Point.Y];
    rewrite ?Nat2Z.inj_succ; repeat split; nia.
Qed.

Lemma crop_within_frame_example :
  (1 <= 8 /\ 0 <= 10 /\ 0 <= 4) /\
  Rectangle.Width
    (Nat.iter 7 (advance right (Size.new 2 0)) (Rectangle.new 0 0 10 4)) < 0.
Proof.
  split; [lia|].
  pose proof (crop_within_frame right 8 10 4 7
                                ltac:(lia) ltac:(lia) ltac:(lia)) as H.
  cbv zeta in H. destruct H as (_ & _ & _ & H). apply H. vm_compute.
  reflexivity.
Defined.

(** ** What the scan finds in any buffer *)

(** A search that succeeds has found the first occurrence at or after
    its starting point. *)
Lemma indexOfFrom_first (value : Buffer.t) :
  forall (buf : Buffer.t) (pos : Z),
    0 <= pos ->
    Buffer.indexOfFrom value buf pos <> -1 ->
    exists k : nat,
      Buffer.indexOfFrom value buf pos = pos + Z.of_nat k /\
      occursAt value buf k = true /\
      (forall j, (j < k)%nat -> occursAt value buf j = false).
Proof.
  unfold occursAt.
  induction buf as [|b rest IH]; intros pos Hpos Hfound.
  - cbn in Hfound |- *. destruct (Buffer.startsWith value []) eqn:E;
      [|congruence].
    exists 0%nat. repeat split; [lia|exact E|intros; lia].
  - cbn [Buffer.indexOfFrom] in Hfound |- *.
    destruct (Buffer.startsWith value (b :: rest)) eqn:E.
    + exists 0%nat. repeat split; [lia|exact E|intros; lia].
    + destruct (IH (pos + 1) ltac:(lia) Hfound) as (k & Hk & Hyes & Hno).
      exists (S k). repeat split; [lia|exact Hyes|].
      intros [|j] Hj; [exact E|]. apply Hno. lia.
Qed.

Lemma indexOfFrom_absent (value : Buffer.t) :
  forall (buf : Buffer.t) (pos : Z),
    Buffer.indexOfFrom value buf pos = -1 -> 0 <= pos ->
    forall j, occursAt value buf j = false.
Proof.
  unfold occursAt.
  induction buf as [|b rest IH]; intros pos Hnone Hpos j.
  - cbn in Hnone. destruct (Buffer.startsWith value []) eqn:E; [lia|].
    now rewrite skipn_nil.
  - cbn [Buffer.indexOfFrom] in Hnone.
    destruct (Buffer.startsWith value (b :: rest)) eqn:E; [lia|].
    destruct j as [|j]; [exact E|].
    apply (IH (pos + 1)); [exact Hnone|lia].
Qed.

Lemma indexOf_first (buf value : Buffer.t) (off : nat) :
  value <> [] ->
  Buffer.indexOf buf value (Z.of_nat off) <> -1 ->
  exists p : nat,
    Buffer.indexOf buf value (Z.of_nat off) = Z.of_nat p /\
    (off <= p < List.length buf)%nat /\
    occursAt value buf p = true /\
    (forall q, (off <= q < p)%nat -> occursAt value buf q = false).
Proof.
  intros Hv Hfound. unfold Buffer.indexOf in *.
  replace (Z.of_nat off <? 0) with false in *
    by (symmetry; apply Z.ltb_ge; lia).
  destruct (Z.of_nat (List.length buf) <? Z.of_nat off); [congruence|].
  rewrite Nat2Z.id in *.
  destruct (indexOfFrom_first value (skipn off buf) (Z.of_nat off)
                              ltac:(lia) Hfound)
    as (k & Hk & Hyes & Hno).
  unfold occursAt in Hyes, Hno. rewrite skipn_skipn in Hyes.
  exists (k + off)%nat. split; [lia|]. split.
  - pose proof (occursAt_inside value buf (k + off) Hv Hyes). lia.
  - split; [exact Hyes|]. intros q Hq.
    specialize (Hno (q - off)%nat ltac:(lia)).
    rewrite skipn_skipn in Hno.
    replace (q - off + off)%nat with q in Hno by lia. exact Hno.
Qed.

Lemma indexOf_absent (buf value : Buffer.t) (off : nat) :
  value <> [] ->
  Buffer.indexOf buf value (Z.of_nat off) = -1 ->
  forall q, (off <= q)%nat -> occursAt value buf q = false.
Proof.
  intros Hv Hnone q Hq. unfold Buffer.indexOf in Hnone.
  replace (Z.of_nat off <? 0) with false in Hnone
    by (symmetry; apply Z.ltb_ge; lia).
  destruct (Z.of_nat (List.length buf) <? Z.of_nat off) eqn:E.
  - apply Z.ltb_lt in E.
    destruct (occursAt value buf q) eqn:O; [|reflexivity].
    apply occursAt_inside in O; [lia|exact Hv].
  - rewrite Nat2Z.id in Hnone.
    pose proof (indexOfFrom_absent value (skipn off buf) (Z.of_nat off)
                                   Hnone ltac:(lia) (q - off)%nat) as H.
    unfold occursAt in H. rewrite skipn_skipn in H.
    replace (q - off + off)%nat with q in H by lia. exact H.
Qed.

Lemma slice_from (buf : Buffer.t) (s : nat) :
  (s <= List.length buf)%nat ->
  Buffer.slice buf (Z.of_nat s) None = skipn s buf.
Proof.
  intros Hs.
  rewrite <- (firstn_skipn s buf) at 1.
  replace (Z.of_nat s) with (Z.of_nat (List.length (firstn s buf)))
    by (rewrite length_firstn; lia).
  apply slice_to_end.
Qed.

Lemma slice_span (buf : Buffer.t) (s e : nat) :
  (s <= e <= List.length buf)%nat ->
  Buffer.slice buf (Z.of_nat s) (Some (Z.of_nat e))
  = firstn (e - s) (skipn s buf).
Proof.
  intros Hse.
  rewrite <- (firstn_skipn s buf) at 1.
  rewrite <- (firstn_skipn (e - s) (skipn s buf)) at 1.
  replace (Z.of_nat s) with (Z.of_nat (List.length (firstn s buf)))
    by (rewrite length_firstn; lia).
  replace (Z.of_nat e)
    with (Z.of_nat (List.length (firstn s buf)
                    + List.length (firstn (e - s) (skipn s buf))))
    by (rewrite !length_firstn, length_skipn; lia).
  apply slice_between.
Qed.

Lemma startsWith_firstn (value buf : Buffer.t) (n : nat) :
  (List.length value <= n)%nat ->
  Buffer.startsWith value buf = true ->
  Buffer.startsWith value (firstn n buf) = true.
Proof.
  revert buf n. induction value as [|v vs IH]; intros buf n Hn H.
  - reflexivity.
  - destruct buf as [|b bs]; [discriminate|].
    destruct n as [|n]; [cbn in Hn; lia|].
    cbn in H |- *. apply andb_prop in H. destruct H as [Hb H].
    rewrite Hb. cbn. apply IH; [cbn in Hn; lia|exact H].
Qed.

(** The loop from a match on: what it pushes begins with the magic
    number, frame by frame, and laid end to end it is the buffer from
    that match to its end. *)
Lemma scan_partition (stdout magicNumber : Buffer.t) :
  magicNumber <> [] ->
  forall (fuel s : nat) (acc frames : list Buffer.t),
    occursAt magicNumber stdout s = true ->
    scan fuel stdout magicNumber (Z.of_nat s)
         (Buffer.indexOf stdout magicNumber
            (Z.of_nat s + Z.of_nat (List.length magicNumber)))
         acc
    = Some frames ->
    exists pushed,
      frames = acc ++ pushed /\
      List.concat pushed = skipn s stdout /\
      Forall (fun f => Buffer.startsWith magicNumber f = true) pushed.
Proof.
  intros Hm.
  induction fuel as [|fuel IH]; intros s acc frames Hs Hscan;
    [discriminate|].
  pose proof (occursAt_inside _ _ _ Hm Hs) as Hin.
  cbn [scan] in Hscan.
  replace (Z.of_nat s =? -1) with false in Hscan
    by (symmetry; apply Z.eqb_neq; lia).
  rewrite <- Nat2Z.inj_add in Hscan.
  destruct (Buffer.indexOf stdout magicNumber
              (Z.of_nat (s + List.length magicNumber)) =? -1) eqn:E.
  - cbn [negb] in Hscan. injection Hscan as <-.
    rewrite slice_from by lia.
    exists [skipn s stdout]. split; [reflexivity|].
    split; [cbn; apply app_nil_r|]. constructor; [exact Hs|constructor].
  - cbn [negb] in Hscan. apply Z.eqb_neq in E.
    destruct (indexOf_first _ _ _ Hm E) as (e & He & Hrange & Hocc & _).
    rewrite He in Hscan. rewrite slice_span in Hscan by lia.
    destruct (IH e _ frames Hocc Hscan) as (pushed & Hf & Hc & Hall).
    exists (firstn (e - s) (skipn s stdout) :: pushed).
    split; [rewrite Hf, <- app_assoc; reflexivity|]. split.
    + cbn [List.concat]. rewrite Hc.
      replace e with (e - s + s)%nat at 2 by lia.
      rewrite <- skipn_skipn. apply firstn_skipn.
    + constructor; [|exact Hall].
      apply startsWith_firstn; [lia|exact Hs].
Qed.

(** X4. Whatever the decoder wrote, the scan returns, every frame it
    returns begins with the magic number, and the frames laid end to
    end are the buffer from the first magic number to its end: only
    the bytes before the first magic number are left out, and without
    a magic number there is no frame. *)
Theorem extractFrames_partition
        (frameCodec : FrameCodec) (stdout : Buffer.t) :
  exists (skipped : Buffer.t) (frames : list Buffer.t),
    extractFrames frameCodec stdout = Some frames /\
    stdout = skipped ++ List.concat frames /\
    Forall (fun f =>
              Buffer.startsWith (magicNumberOf frameCodec) f = true)
           frames /\
    (forall p, (p < List.length skipped)%nat ->
               occursAt (magicNumberOf frameCodec) stdout p = false) /\
    (frames = [] -> skipped = stdout).
Proof.
  pose proof (magicNumberOf_not_nil frameCodec) as Hm.
  destruct (extractFrames_total frameCodec stdout) as [frames Hframes].
  pose proof Hframes as Hscan. unfold extractFrames in Hscan.
  destruct (Z.eq_dec (Buffer.indexOf stdout (magicNumberOf frameCodec) 0)
                     (-1)) as [E|E].
  - rewrite E in Hscan. cbn [scan Z.eqb] in Hscan. injection Hscan as <-.
    exists stdout, []. split; [exact Hframes|].
    split; [cbn; now rewrite app_nil_r|]. split; [constructor|].
    split; [|reflexivity].
    intros p _. apply (indexOf_absent _ _ 0 Hm E). lia.
  - destruct (indexOf_first _ _ 0 Hm E) as (s & Hs & Hrange & Hocc & Hno).
    change 0 with (Z.of_nat 0) in Hscan. rewrite Hs in Hscan.
    destruct (scan_partition stdout _ Hm _ s [] frames Hocc Hscan)
      as (pushed & Hf & Hc & Hall).
    cbn [app] in Hf. subst pushed.
    exists (firstn s stdout), frames. split; [exact Hframes|].
    split; [rewrite Hc; symmetry; apply firstn_skipn|].
    split; [exact Hall|]. split.
    + intros p Hp. rewrite length_firstn in Hp. apply Hno. lia.
    + intros ->. cbn in Hc. rewrite <- (firstn_skipn s stdout) at 2.
      rewrite <- Hc. symmetry. apply app_nil_r.
Qed.

(** ** What the frame loop writes *)

Lemma written_app (a b : list Event) :
  written (a ++ b) = (written a + written b)%nat.
Proof. unfold written. now rewrite filter_app, length_app. Qed.

Lemma ended_app (a b : list Event) :
  ended (a ++ b) = (ended a + ended b)%nat.
Proof. unfold ended. now rewrite filter_app, length_app. Qed.

Lemma spawned_app (a b : list Event) :
  spawned (a ++ b) = spawned a ++ spawned b.
Proof. apply filter_app. Qed.

Lemma onlyWrites_app (n m : nat) (a b : list Event) :
  onlyWrites n a -> onlyWrites m b -> onlyWrites (n + m) (a ++ b).
Proof.
  intros (Wa & Ea & Ha & Sa) (Wb & Eb & Hb & Sb). unfold onlyWrites.
  rewrite written_app, ended_app, handled_app, spawned_app.
  rewrite Wa, Wb, Ea, Eb, Ha, Hb, Sa, Sb. auto.
Qed.

Section Writes.

Variable loadImage : Buffer.t -> option Image.

(** A frame that decodes is written once, whether it is the first or
    not. *)
Lemma DoEffectSingleFrame_writes
      (g : BlueLineGenerator) (frame : Buffer.t) (image : Image)
      (strokeStyle : string) :
  loadImage frame = Some image ->
  strokeStyleOf (Options.lineColor (options g)) = Some strokeStyle ->
  exists g1 es,
    DoEffectSingleFrame loadImage g (Some frame) = (g1, true) /\
    events g1 = events g ++ es /\ onlyWrites 1 es /\
    frameImages g1 = frameImages g /\
    currentFrameNum g1 = currentFrameNum g /\
    options g1 = options g.
Proof.
  intros Hload Hstyle.
  destruct (Z.eq_dec (Size.Width (effectCanvas g)) 0) as [Hw|Hw].
  - rewrite (DoEffectSingleFrame_first loadImage g frame image strokeStyle
               Hload Hw Hstyle).
    eexists. eexists. split; [reflexivity|]. cbn [events frameImages
      currentFrameNum options]. split; [reflexivity|].
    repeat split.
  - rewrite (DoEffectSingleFrame_later loadImage g frame image Hload Hw).
    eexists. eexists. split; [reflexivity|]. cbn [events frameImages
      currentFrameNum options]. split; [reflexivity|].
    repeat split.
Qed.

(** A stretch of frames that decode, in part_000: the chain goes
    through them, writing each one. *)
Lemma frameChain_good (good : list Buffer.t) :
  forall (done tail : list Buffer.t) (g : BlueLineGenerator) (fuel : nat),
    frameImages g = done ++ good ++ tail ->
    currentFrameNum g = Z.of_nat (List.length done) ->
    Forall (fun frame => loadImage frame <> None) good ->
    strokeStyleOf (Options.lineColor (options g)) <> None ->
    exists gk es,
      frameChain loadImage (List.length good + fuel) g
      = frameChain loadImage fuel gk /\
      events gk = events g ++ es /\ onlyWrites (List.length good) es /\
      frameImages gk = frameImages g /\
      currentFrameNum gk = Z.of_nat (List.length done + List.length good) /\
      options gk = options g.
Proof.
  induction good as [|frame good IH];
    intros done tail g fuel Hf Hc Hload Hstyle.
  - exists g, []. cbn [List.length Nat.add].
    rewrite app_nil_r, Nat.add_0_r. repeat split; auto.
  - cbn [List.length Nat.add frameChain].
    rewrite (GetNextFrame_some g done (good ++ tail) frame Hf Hc).
    inversion Hload as [|? ? Hframe Hgood]; subst.
    destruct (loadImage frame) as [image|] eqn:E; [|congruence].
    destruct (strokeStyleOf (Options.lineColor (options g)))
      as [strokeStyle|] eqn:Es; [|congruence].
    destruct (DoEffectSingleFrame_writes
                (set_currentFrameNum (currentFrameNum g + 1) g)
                frame image strokeStyle E Es)
      as (g1 & es1 & Hrun & He1 & Ho1 & Hf1 & Hc1 & Hopt1).
    rewrite Hrun.
    cbn [set_currentFrameNum events frameImages currentFrameNum options]
      in He1, Hf1, Hc1, Hopt1.
    destruct (IH (done ++ [frame]) tail g1 fuel)
      as (gk & es & Hk & He & Ho & Hfk & Hck & Hoptk).
    + rewrite Hf1, Hf, <- app_assoc. reflexivity.
    + rewrite Hc1, Hc, length_app. cbn [List.length]. lia.
    + exact Hgood.
    + rewrite Hopt1, Es. discriminate.
    + exists gk, (es1 ++ es). split; [exact Hk|].
      split; [rewrite He, He1, app_assoc; reflexivity|].
      split; [exact (onlyWrites_app 1 _ _ _ Ho1 Ho)|].
      split; [congruence|]. split; [|congruence].
      rewrite Hck, length_app. cbn [List.length]. f_equal. lia.
Qed.

(** The same stretch in the loop of blueline.ts. *)
Lemma forFrames_good (good : list Buffer.t) :
  forall (tail : list Buffer.t) (g : BlueLineGenerator),
    Forall (fun frame => loadImage frame <> None) good ->
    exists gk es,
      forFrames loadImage g (good ++ tail) = forFrames loadImage gk tail /\
      events gk = events g ++ es /\ onlyWrites (List.length good) es.
Proof.
  induction good as [|frame good IH]; intros tail g Hload.
  - exists g, []. rewrite app_nil_r. repeat split; auto.
  - inversion Hload as [|? ? Hframe Hgood]; subst.
    cbn [app forFrames].
    destruct (loadImage frame) as [image|] eqn:E; [|congruence].
    match goal with
    | |- context [forFrames loadImage ?g1 (good ++ tail)] =>
        destruct (IH tail g1 Hgood) as (gk & es & Hk & He & Ho);
        exists gk;
        assert (exists es1, events g1 = events g ++ es1 /\ onlyWrites 1 es1)
          as (es1 & He1 & Ho1)
    end.
    { destruct (Size.Width (effectCanvas g) =? 0).
      - destruct (firstFrameCrop _ _ _ _ _) as [rect step]. fields.
        rewrite <- app_assoc. eexists. split; [reflexivity|].
        repeat split.
      - fields. rewrite <- app_assoc. eexists. split; [reflexivity|].
        repeat split. }
    exists (es1 ++ es). split; [exact Hk|].
    split; [rewrite He, He1, app_assoc; reflexivity|].
    exact (onlyWrites_app 1 _ _ _ Ho1 Ho).
Qed.

End Writes.

(** X5. When every frame decodes, [DoEffect] starts the encoder,
    writes one encoded frame for every frame it was given, and then
    ends the encoder's input: the end comes last and once, and the
    error handler is not called.  When the encoder has finished,
    [OnFfmpegEffectFinished] hands its error, if any, to the error
    handler; part_000 then ends the input a second time, blueline.ts
    does not.  In part_000 the frame counter starts at 0 and the line
    colour has its three channels. *)
Theorem DoEffect_writes_every_frame
        (loadImage : Buffer.t -> option Image) (rev : Revision)
        (g : BlueLineGenerator) :
  Forall (fun frame => loadImage frame <> None) (frameImages g) ->
  (rev = part_000 ->
   currentFrameNum g = 0 /\
   strokeStyleOf (Options.lineColor (options g)) <> None) ->
  exists g' before es,
    DoEffect loadImage rev g = Returns g' /\
    events g' = events g ++ before ++ es ++ [StdinEnd] /\
    spawned before
    = [ExecFileEncoder (Options.ffmpegPath (options g))
                       (Options.fps (options g))
                       (Options.frameCodec (options g))
                       (Options.output (options g))] /\
    written before = 0%nat /\ ended before = 0%nat /\ handled before = [] /\
    onlyWrites (List.length (frameImages g)) es /\
    (forall error : option string,
        let g'' := OnFfmpegEffectFinished rev g' error in
        ended (events g'')
        = (ended (events g)
           + match rev with blueline_ts => 1 | part_000 => 2 end)%nat /\
        handled (events g'')
        = handled (events g)
          ++ match error with Some e => [ErrorObject e] | None => [] end).
Proof.
  intros Hload Hrev. unfold DoEffect. destruct rev; fields.
  - match goal with
    | |- context [forFrames loadImage ?g1 ?fs] =>
        pose proof (forFrames_good loadImage fs [] g1 Hload)
          as (gk & es & Hk & He & Ho)
    end.
    rewrite app_nil_r in Hk. rewrite Hk. cbn [forFrames].
    cbn [events] in He.
    eexists. exists [ConsoleLog "Creating effect..."%string;
                     ExecFileEncoder (Options.ffmpegPath (options g))
                                     (Options.fps (options g))
                                     (Options.frameCodec (options g))
                                     (Options.output (options g))], es.
    split; [reflexivity|]. fields. rewrite He, <- !app_assoc.
    repeat (split; [reflexivity|]). split; [exact Ho|].
    destruct Ho as (_ & E & H & _).
    intros error. unfold OnFfmpegEffectFinished. cbv zeta.
    destruct error; fields; rewrite ?He;
      rewrite !ended_app, !handled_app, E, H; cbn;
      rewrite ?app_nil_r; split; (lia || reflexivity).
  - destruct (Hrev eq_refl) as [Hc Hstyle].
    match goal with
    | |- context [frameChain loadImage (S ?n) ?g1] =>
        destruct (frameChain_good loadImage (frameImages g) [] [] g1 1)
          as (gk & es & Hk & He & Ho & Hfk & Hck & _);
          [cbn [frameImages app]; now rewrite app_nil_r
          |exact Hc|exact Hload|exact Hstyle|];
        replace (S n) with (List.length (frameImages g) + 1)%nat by lia
    end.
    rewrite Hk. cbn [frameChain].
    cbn [events frameImages] in He, Hfk.
    rewrite GetNextFrame_none by (rewrite Hck, Hfk; reflexivity).
    cbn [DoEffectSingleFrame].
    eexists. exists [ConsoleLog "Creating effect..."%string;
                     ExecFileEncoder (Options.ffmpegPath (options g))
                                     (Options.fps (options g))
                                     (Options.frameCodec (options g))
                                     (Options.output (options g));
                     StdinOnError], es.
    split; [reflexivity|]. fields. rewrite He, <- !app_assoc.
    repeat (split; [reflexivity|]). split; [exact Ho|].
    destruct Ho as (_ & E & H & _).
    intros error. unfold OnFfmpegEffectFinished. cbv zeta.
    destruct error; fields; rewrite ?He;
      rewrite !ended_app, !handled_app, E, H; cbn;
      rewrite ?app_nil_r; split; (lia || reflexivity).
Qed.

Lemma DoEffect_writes_two_frames :
  let loadImage := fun _ : Buffer.t => Some {| width := 10; height := 4 |} in
  let g :=
    mk (Options.mk "in.mp4" "out.mp4" "ffmpeg" DEFAULT_MAX_BUFFER 1 down
                   png [0; 194; 203] 3)
       3 [[x89; x50; x4e; x47; x00]; [x89; x50; x4e; x47; x01]]
       (Size.new 0 0) (Size.new 0 0) 0 (Rectangle.new 0 0 0 0)
       (Size.new 0 0) [] in
  exists g',
    DoEffect loadImage part_000 g = Returns g' /\
    written (events g') = 2%nat /\ ended (events g') = 1%nat.
Proof.
  intros loadImage g.
  destruct (DoEffect_writes_every_frame loadImage part_000 g)
    as (g' & before & es & Hrun & He & _ & Wb & Eb & _ & (W & E & _) & _).
  - repeat constructor; discriminate.
  - intros _. split; [reflexivity|discriminate].
  - exists g'. split; [exact Hrun|]. rewrite He.
    rewrite !written_app, !ended_app, Wb, Eb, W, E. split; reflexivity.
Defined.

(** X6. When a frame does not decode, the frames before it have been
    written and nothing follows: the later frames are not written, the
    encoder's input is not ended and the error handler is not called.
    This holds in both revisions; in part_000 the frame counter starts
    at 0 and the line colour has its three channels. *)
Theorem DoEffect_stops_at_undecodable_frame
        (loadImage : Buffer.t -> option Image) (rev : Revision)
        (g : BlueLineGenerator) (good rest : list Buffer.t)
        (bad : Buffer.t) :
  frameImages g = good ++ bad :: rest ->
  Forall (fun frame => loadImage frame <> None) good ->
  loadImage bad = None ->
  (rev = part_000 ->
   currentFrameNum g = 0 /\
   strokeStyleOf (Options.lineColor (options g)) <> None) ->
  exists g' es,
    DoEffect loadImage rev g = Returns g' /\
    events g' = events g ++ es ++ [UnhandledRejection] /\
    written es = List.length good /\
    ended es = 0%nat /\ handled es = [].
Proof.
  intros Hf Hload Hbad Hrev. unfold DoEffect. destruct rev; fields.
  - rewrite Hf.
    match goal with
    | |- context [forFrames loadImage ?g1 _] =>
        pose proof (forFrames_good loadImage good (bad :: rest) g1 Hload)
          as (gk & es & Hk & He & (W & E & H & _))
    end.
    rewrite Hk. cbn [forFrames]. rewrite Hbad.
    cbn [events] in He.
    eexists. exists ([ConsoleLog "Creating effect..."%string;
                      ExecFileEncoder (Options.ffmpegPath (options g))
                                      (Options.fps (options g))
                                      (Options.frameCodec (options g))
                                      (Options.output (options g))] ++ es).
    split; [reflexivity|]. fields. rewrite He, <- !app_assoc.
    split; [reflexivity|].
    rewrite written_app, ended_app, handled_app, W, E, H.
    repeat split.
  - destruct (Hrev eq_refl) as [Hc Hstyle].
    match goal with
    | |- context [frameChain loadImage (S ?n) ?g1] =>
        destruct (frameChain_good loadImage good [] (bad :: rest) g1
                                  (S (S (List.length rest))))
          as (gk & es & Hk & He & (W & E & H & _) & Hfk & Hck & _);
          [exact Hf|exact Hc|exact Hload|exact Hstyle|];
        replace (S n)
          with (List.length good + S (S (List.length rest)))%nat
          by (rewrite Hf, length_app; cbn [List.length]; lia)
    end.
    rewrite Hk. cbn [frameChain].
    cbn [events frameImages] in He, Hfk.
    rewrite (GetNextFrame_some gk good rest bad)
      by (rewrite ?Hfk, ?Hck; auto; f_equal; lia).
    unfold DoEffectSingleFrame. rewrite Hbad.
    eexists.
    exists ([ConsoleLog "Creating effect..."%string;
             ExecFileEncoder (Options.ffmpegPath (options g))
                             (Options.fps (options g))
                             (Options.frameCodec (options g))
                             (Options.output (options g));
             StdinOnError] ++ es
            ++ [ConsoleInfo ("Frame #" ++ decimal (currentFrameNum gk + 1))]).
    split; [reflexivity|]. fields. rewrite He, <- !app_assoc.
    split; [reflexivity|].
    rewrite !written_app, !ended_app, !handled_app, W, E, H.
    cbn. repeat split; lia.
Qed.

Lemma DoEffect_stops_at_second_frame :
  let loadImage :=
    fun frame : Buffer.t =>
      match frame with
      | [_; _; _; x00] => Some {| width := 10; height := 4 |}
      | _ => None
      end in
  let g :=
    mk (Options.mk "in.mp4" "out.mp4" "ffmpeg" DEFAULT_MAX_BUFFER 1 right
                   mjpeg [0; 194; 203] 3)
       3 [[xff; xd8; xff; x00]; [xff; xd8; xff; x01]; [xff; xd8; xff; x00]]
       (Size.new 0 0) (Size.new 0 0) 0 (Rectangle.new 0 0 0 0)
       (Size.new 0 0) [] in
  exists g',
    DoEffect loadImage blueline_ts g = Returns g' /\
    written (events g') = 1%nat /\ ended (events g') = 0%nat.
Proof.
  intros loadImage g.
  destruct (DoEffect_stops_at_undecodable_frame
              loadImage blueline_ts g [[xff; xd8; xff; x00]]
              [[xff; xd8; xff; x00]] [xff; xd8; xff; x01])
    as (g' & es & Hrun & He & W & E & _).
  - reflexivity.
  - repeat constructor; discriminate.
  - reflexivity.
  - discriminate.
  - exists g'. split; [exact Hrun|]. rewrite He.
    rewrite !written_app, !ended_app, W, E. split; reflexivity.
Defined.

(** X7. In part_000 a line colour with fewer than three channels stops
    the effect at the first frame: the encoder is started, the frame
    is announced, and then nothing is drawn or written, the encoder's
    input is left open and the error handler is not called. *)
Theorem DoEffect_missing_colour_channel
        (loadImage : Buffer.t -> option Image) (g : BlueLineGenerator)
        (frame : Buffer.t) (frames : list Buffer.t) (image : Image) :
  frameImages g = frame :: frames ->
  currentFrameNum g = 0 ->
  loadImage frame = Some image ->
  (List.length (Options.lineColor (options g)) < 3)%nat ->
  exists g',
    DoEffect loadImage part_000 g = Returns g' /\
    events g'
    = events g
      ++ [ConsoleLog "Creating effect..."%string;
          ExecFileEncoder (Options.ffmpegPath (options g))
                          (Options.fps (options g))
                          (Options.frameCodec (options g))
                          (Options.output (options g));
          StdinOnError;
          ConsoleInfo "Frame #1"%string;
          UnhandledRejection].
Proof.
  intros Hf Hc Hload Hcolor.
  assert (strokeStyleOf (Options.lineColor (options g)) = None) as Hstyle.
  { destruct (Options.lineColor (options g)) as [|r [|gr [|b rest]]];
      cbn in Hcolor |- *; try reflexivity; lia. }
  unfold DoEffect. fields. cbn [frameChain].
  match goal with
  | |- context [GetNextFrame ?g0] =>
      rewrite (GetNextFrame_some g0 [] frames frame Hf Hc)
  end.
  unfold DoEffectSingleFrame, firstFrame. rewrite Hload. fields.
  cbn [Size.Width Z.eqb]. fields. rewrite Hstyle. fields.
  rewrite Hc. eexists. split; [reflexivity|]. fields.
  rewrite <- !app_assoc. reflexivity.
Qed.

Lemma DoEffect_missing_colour_channel_empty :
  let loadImage := fun _ : Buffer.t => Some {| width := 10; height := 4 |} in
  let g :=
    mk (Options.mk "in.mp4" "out.mp4" "ffmpeg" DEFAULT_MAX_BUFFER 1 right
                   mjpeg [] 3)
       3 [[xff; xd8; xff; x00]]
       (Size.new 0 0) (Size.new 0 0) 0 (Rectangle.new 0 0 0 0)
       (Size.new 0 0) [] in
  exists g',
    DoEffect loadImage part_000 g = Returns g' /\
    written (events g') = 0%nat /\ ended (events g') = 0%nat.
Proof.
  intros loadImage g.
  destruct (DoEffect_missing_colour_channel
              loadImage g [xff; xd8; xff; x00] []
              {| width := 10; height := 4 |})
    as (g' & Hrun & He).
  - reflexivity.
  - reflexivity.
  - reflexivity.
  - cbn. lia.
  - exists g'. split; [exact Hrun|]. rewrite He. split; reflexivity.
Defined.

(** ** From the options to the two processes *)

Section Spawns.

Variable loadImage : Buffer.t -> option Image.

(** Working on a frame starts no process. *)
Lemma DoEffectSingleFrame_spawned
      (g : BlueLineGenerator) (frame : option Buffer.t) :
  spawned (events (fst (DoEffectSingleFrame loadImage g frame)))
  = spawned (events g).
Proof.
  unfold DoEffectSingleFrame, firstFrame.
  destruct frame as [frame|]; cbn;
    [|rewrite spawned_app, app_nil_r; auto].
  destruct (loadImage frame) as [image|]; cbn;
    [|rewrite !spawned_app, !app_nil_r; auto].
  destruct (Size.Width (effectCanvas g) =? 0); cbn.
  - destruct (strokeStyleOf (Options.lineColor (options g))); cbn.
    + destruct (firstFrameCrop _ _ _ _ _) as [rect step]. cbn.
      destruct (line _ _). cbn. rewrite !spawned_app, !app_nil_r. auto.
    + rewrite !spawned_app, !app_nil_r. auto.
  - destruct (line _ _). cbn. rewrite !spawned_app, !app_nil_r. auto.
Qed.

Lemma frameChain_spawned (fuel : nat) :
  forall g g' : BlueLineGenerator,
    frameChain loadImage fuel g = Returns g' ->
    spawned (events g') = spawned (events g).
Proof.
  induction fuel as [|fuel IH]; intros g g' Hrun; [discriminate|].
  cbn [frameChain] in Hrun.
  destruct (GetNextFrame g) as [frame g0] eqn:Hnext.
  assert (events g0 = events g) as H0.
  { unfold GetNextFrame in Hnext.
    destruct (_ <=? _); injection Hnext as _ <-; reflexivity. }
  pose proof (DoEffectSingleFrame_spawned g0 frame) as H1.
  destruct (DoEffectSingleFrame loadImage g0 frame) as [g1 again].
  cbn [fst] in H1. rewrite H0 in H1.
  destruct again.
  - rewrite (IH _ _ Hrun). exact H1.
  - injection Hrun as <-. exact H1.
Qed.

Lemma forFrames_spawned (frames : list Buffer.t) :
  forall g : BlueLineGenerator,
    spawned (events (forFrames loadImage g frames)) = spawned (events g).
Proof.
  induction frames as [|frame frames IH]; intros g; cbn [forFrames].
  - fields. rewrite spawned_app, app_nil_r. auto.
  - destruct (loadImage frame) as [image|].
    + rewrite IH.
      destruct (Size.Width (effectCanvas g) =? 0); fields.
      * destruct (firstFrameCrop _ _ _ _ _) as [rect step]. fields.
        rewrite !spawned_app, !app_nil_r. auto.
      * rewrite !spawned_app, !app_nil_r. auto.
    + fields. rewrite spawned_app, app_nil_r. auto.
Qed.

(** [DoEffect] starts the encoder and nothing else, whatever the
    frames are. *)
Lemma DoEffect_spawned
      (rev : Revision) (g g' : BlueLineGenerator) :
  DoEffect loadImage rev g = Returns g' ->
  spawned (events g')
  = spawned (events g)
    ++ [ExecFileEncoder (Options.ffmpegPath (options g))
                        (Options.fps (options g))
                        (Options.frameCodec (options g))
                        (Options.output (options g))].
Proof.
  unfold DoEffect. destruct rev; fields; intros Hrun.
  - injection Hrun as <-. rewrite forFrames_spawned. fields.
    rewrite !spawned_app. cbn. now rewrite app_nil_r.
  - rewrite (frameChain_spawned _ _ _ Hrun). fields.
    rewrite !spawned_app. cbn. now rewrite !app_nil_r.
Qed.

End Spawns.

Lemma OnFfmpegFramesOutputFinished_spawned
      (loadImage : Buffer.t -> option Image) (rev : Revision)
      (g g' : BlueLineGenerator) (stdout : Buffer.t) :
  OnFfmpegFramesOutputFinished loadImage rev g None stdout = Returns g' ->
  spawned (events g')
  = spawned (events g)
    ++ [ExecFileEncoder (Options.ffmpegPath (options g))
                        (Options.fps (options g))
                        (Options.frameCodec (options g))
                        (Options.output (options g))].
Proof.
  unfold OnFfmpegFramesOutputFinished.
  destruct (extractFrames _ stdout) as [frames|]; [|discriminate].
  intros Hrun. rewrite (DoEffect_spawned _ _ _ _ Hrun).
  rewrite set_frameImages_eq. cbn [frameImages totalFrames].
  destruct (_ <? _); fields; rewrite !spawned_app; cbn;
    now rewrite ?app_nil_r.
Qed.

Lemma falsyString_Some (s : string) :
  s <> ""%string -> falsyString (Some s) = false.
Proof.
  intros Hs. cbn. apply String.eqb_neq. exact Hs.
Qed.

Lemma stringOr_Some (s d : string) :
  s <> ""%string -> stringOr (Some s) d = s.
Proof.
  intros Hs. unfold stringOr. now rewrite falsyString_Some.
Qed.

(** ** The product of the rate and the length *)


Lemma pow2_pos (e : Z) : (0 < Number.pow2 e)%Q.
Proof.
  unfold Number.pow2. destruct (0 <=? e) eqn:E.
  - apply Z.leb_le in E. change 0%Q with (inject_Z 0). rewrite <- Zlt_Qlt.
    apply Z.pow_pos_nonneg; lia.
  - apply Z.leb_gt in E. apply Qinv_lt_0_compat.
    change 0%Q with (inject_Z 0). rewrite <- Zlt_Qlt.
    apply Z.pow_pos_nonneg; lia.
Qed.

Lemma pow2_nonpos (e : Z) :
  e <= 0 -> (Number.pow2 e == / inject_Z (2 ^ (- e)))%Q.
Proof.
  intros He. unfold Number.pow2. destruct (0 <=? e) eqn:E; [|reflexivity].
  apply Z.leb_le in E. replace e with 0 by lia. reflexivity.
Qed.

Lemma pow2_nonneg_le (a b : Z) :
  0 <= a <= b -> (Number.pow2 a <= Number.pow2 b)%Q.
Proof.
  intros H. unfold Number.pow2.
  replace (0 <=? a) with true by (symmetry; apply Z.leb_le; lia).
  replace (0 <=? b) with true by (symmetry; apply Z.leb_le; lia).
  rewrite <- Zle_Qle. apply Z.pow_le_mono_r; lia.
Qed.

Lemma Qabs_num_den (q : Q) : Qabs q = Z.abs (Qnum q) # Qden q.
Proof. destruct q. reflexivity. Qed.

Lemma ilog2_small (q : Q) :
  (Qabs q < inject_Z (2 ^ 53))%Q -> Number.ilog2 q <= 52.
Proof.
  intros Hq. unfold Number.ilog2.
  set (l := Z.log2 (Z.abs (Qnum q)) - Z.log2 (Z.pos (Qden q))).
  destruct (Qle_bool (Number.pow2 l) (Qabs q)) eqn:E.
  - apply Qle_bool_iff in E.
    destruct (Z_lt_le_dec l 53) as [Hl|Hl]; [lia|]. exfalso.
    pose proof (pow2_nonneg_le 53 l ltac:(lia)) as Hp.
    change (Number.pow2 53) with (inject_Z (2 ^ 53)) in Hp.
    apply (Qlt_irrefl (Qabs q)).
    eapply Qlt_le_trans; [exact Hq|]. eapply Qle_trans; eassumption.
  - enough (l <= 53) by lia. subst l.
    rewrite Qabs_num_den in Hq. unfold Qlt, inject_Z in Hq.
    cbn [Qnum Qden] in Hq. rewrite Z.mul_1_r in Hq.
    set (n := Z.abs (Qnum q)) in *. set (d := Z.pos (Qden q)) in *.
    assert (0 <= n) as Hn by (subst n; lia).
    assert (0 < d) as Hd by (subst d; lia).
    destruct (Z.eq_dec n 0) as [->|Hn0].
    + cbn [Z.log2]. pose proof (Z.log2_nonneg d). lia.
    + pose proof (Z.log2_spec d Hd) as [_ Hdu].
      assert (n < 2 ^ (54 + Z.log2 d)) as Hlt.
      { rewrite Z.pow_add_r by (pose proof (Z.log2_nonneg d); lia).
        replace (2 ^ 54) with (2 ^ 53 * 2) by reflexivity.
        replace (Z.succ (Z.log2 d)) with (Z.log2 d + 1) in Hdu by lia.
        rewrite Z.pow_add_r in Hdu by (pose proof (Z.log2_nonneg d); lia).
        change (2 ^ 1) with 2 in Hdu. nia. }
      apply Z.log2_lt_pow2 in Hlt; lia.
Qed.

Lemma ulpExponent_small (q : Q) :
  (Qabs q < inject_Z (2 ^ 53))%Q -> Number.ulpExponent q <= 0.
Proof.
  intros Hq. apply ilog2_small in Hq. unfold Number.ulpExponent. lia.
Qed.

Lemma roundTiesToEven_bounds (x : Q) :
  Qfloor x <= Number.roundTiesToEven x <= Qceiling x.
Proof.
  unfold Number.roundTiesToEven.
  pose proof (Qle_floor_ceiling x) as Hfc. rewrite <- Zle_Qle in Hfc.
  assert ((1 # 2 <= x - inject_Z (Qfloor x))%Q -> Qfloor x + 1 <= Qceiling x)
    as Hup.
  { intros Hh.
    assert (inject_Z (Qfloor x) < inject_Z (Qceiling x))%Q as Hlt.
    { eapply Qlt_le_trans; [|apply Qle_ceiling].
      apply (Qplus_lt_l _ _ (- inject_Z (Qfloor x))).
      rewrite Qplus_opp_r. eapply Qlt_le_trans; [|exact Hh]. reflexivity. }
    rewrite <- Zlt_Qlt in Hlt. lia. }
  destruct (x - inject_Z (Qfloor x) ?= 1 # 2)%Q eqn:E.
  - apply Qeq_alt in E.
    destruct (Z.even (Qfloor x)); [lia|].
    split; [lia|]. apply Hup. rewrite E. apply Qle_refl.
  - lia.
  - apply Qgt_alt in E. split; [lia|]. apply Hup. apply Qlt_le_weak. exact E.
Qed.

(** Below 2^53 every integer is a binary64 value, and rounding does not
    cross one. *)
Lemma round_integer_bounds (q : Q) (k : Z) :
  (Qabs q < inject_Z (2 ^ 53))%Q ->
  ((inject_Z k <= q)%Q -> (inject_Z k <= Number.round q)%Q) /\
  ((q <= inject_Z k)%Q -> (Number.round q <= inject_Z k)%Q).
Proof.
  intros Hq. pose proof (ulpExponent_small q Hq) as He.
  unfold Number.round.
  set (e := Number.ulpExponent q) in *.
  pose proof (pow2_pos e) as Hpos.
  pose proof (pow2_nonpos e He) as Hinv.
  set (s := 2 ^ (- e)) in *.
  assert (0 < s) as Hs by (apply Z.pow_pos_nonneg; lia).
  assert (0 < inject_Z s)%Q as HsQ
      by (change 0%Q with (inject_Z 0); now rewrite <- Zlt_Qlt).
  assert (forall z : Z, (inject_Z (z * s) * Number.pow2 e == inject_Z z)%Q)
    as Hback.
  { intros z. rewrite Hinv, inject_Z_mult. field.
    intros H0. rewrite H0 in HsQ. now apply Qlt_irrefl in HsQ. }
  assert (q / Number.pow2 e == q * inject_Z s)%Q as Hscale.
  { rewrite Hinv. field.
    intros H0. rewrite H0 in HsQ. now apply Qlt_irrefl in HsQ. }
  pose proof (roundTiesToEven_bounds (q / Number.pow2 e)) as [Hlo Hhi].
  split; intros Hk.
  - rewrite <- (Hback k). apply Qmult_le_compat_r; [|now apply Qlt_le_weak].
    rewrite <- Zle_Qle. etransitivity; [|exact Hlo].
    rewrite <- (Qfloor_Z (k * s)). apply Qfloor_resp_le.
    rewrite Hscale, inject_Z_mult.
    apply Qmult_le_compat_r; [exact Hk|now apply Qlt_le_weak].
  - rewrite <- (Hback k). apply Qmult_le_compat_r; [|now apply Qlt_le_weak].
    rewrite <- Zle_Qle. etransitivity; [exact Hhi|].
    rewrite <- (Qceiling_Z (k * s)). apply Qceiling_resp_le.
    rewrite Hscale, inject_Z_mult.
    apply Qmult_le_compat_r; [exact Hk|now apply Qlt_le_weak].
Qed.

Lemma mul_floor_ceiling (x y : Q) :
  (Qabs (x * y) < inject_Z (2 ^ 53))%Q ->
  Qfloor (x * y) <= Qceiling (Number.mul x y) <= Qceiling (x * y).
Proof.
  intros Hq. unfold Number.mul. split.
  - destruct (round_integer_bounds (x * y) (Qfloor (x * y)) Hq) as [Hlo _].
    specialize (Hlo (Qfloor_le _)).
    rewrite Zle_Qle. eapply Qle_trans; [exact Hlo|apply Qle_ceiling].
  - destruct (round_integer_bounds (x * y) (Qceiling (x * y)) Hq) as [_ Hhi].
    specialize (Hhi (Qle_ceiling _)).
    rewrite <- (Qceiling_Z (Qceiling (x * y))). now apply Qceiling_resp_le.
Qed.

(** The two ends of these bounds are met: the number nearest to 1.1
    times 50 gives 56 frames, the exact product rounded up; the number
    nearest to 0.1 times 10 gives 1 frame, the exact product rounded
    down. *)
Example mul_rounds_up_or_down :
  let eleven_tenths := 2476979795053773 # 2251799813685248 in
  let one_tenth := 3602879701896397 # 36028797018963968 in
  Number.isDouble eleven_tenths = true /\
  Number.isDouble one_tenth = true /\
  Number.isDouble (11 # 10) = false /\
  Qceiling (Number.mul eleven_tenths 50) = 56 /\
  Qfloor (eleven_tenths * 50) = 55 /\
  Qceiling (Number.mul one_tenth 10) = 1 /\
  Qceiling (one_tenth * 10) = 2.
Proof. vm_compute. repeat split. Qed.

(** The rounding at work: the well-known 0.1 times 3, a product that
    needs 54 bits and falls between two neighbours (a tie, which goes
    to the even one), and the smallest positive number halved, which
    is a tie between it and zero and gives zero. *)
Example mul_examples :
  let one_tenth := 3602879701896397 # 36028797018963968 in
  (Number.mul one_tenth 3 == 1351079888211149 # 4503599627370496)%Q /\
  (Number.mul 94906267 94906267 == 9007199515875288)%Q /\
  (94906267 * 94906267 == 9007199515875289)%Q /\
  (Number.mul (Number.pow2 (-1074)) (1 # 2) == 0)%Q /\
  (Number.mul (3 * Number.pow2 (-1074)) (1 # 2) == Number.pow2 (-1073))%Q.
Proof. vm_compute. repeat split. Qed.

(** X8. From the options to the end of the effect, with both paths
    given, the input file present and the decoder ending well: exactly
    two processes are started, first the decoder, then the encoder,
    both with the same executable, rate and codec, whatever the decoder
    wrote.  The decoder is capped at the frame count [Generate] has
    stored in [totalFrames], the one the frames found are counted
    against afterwards. *)
Theorem pipeline_spawns_decoder_then_encoder
        (existsSync : string -> bool)
        (loadImage : Buffer.t -> option Image) (rev : Revision)
        (raw : Raw.t) (input output : string) (stdout : Buffer.t) :
  Raw.input raw = Some input -> input <> ""%string ->
  Raw.output raw = Some output -> output <> ""%string ->
  existsSync input = true ->
  exists g0 g1 g2,
    constructor rev raw = Returns g0 /\
    Generate existsSync rev g0 = Returns g1 /\
    OnFfmpegFramesOutputFinished loadImage rev g1 None stdout = Returns g2 /\
    let o := options g0 in
    spawned (events g2)
    = [ExecFileDecoder (Options.ffmpegPath o) input (Options.frameCodec o)
                       (Options.fps o) (totalFrames g1)
                       (Options.maxBuffer o);
       ExecFileEncoder (Options.ffmpegPath o) (Options.fps o)
                       (Options.frameCodec o) output].
Proof.
  intros Hin Hi Hout Ho Hexists.
  unfold constructor. rewrite Hin, Hout.
  rewrite (falsyString_Some input Hi), (falsyString_Some output Ho).
  rewrite (stringOr_Some input _ Hi), (stringOr_Some output _ Ho).
  assert (forall g1,
             exists g2,
               OnFfmpegFramesOutputFinished loadImage rev g1 None stdout
               = Returns g2) as Htotal.
  { intros g1.
    destruct (extractFrames_total (Options.frameCodec (options g1)) stdout)
      as [frames Hframes].
    destruct (OnFfmpegFramesOutputFinished_frames
                loadImage rev g1 stdout frames Hframes) as (g2 & H2 & _).
    eauto. }
  match goal with
  | |- context [Returns ?x = Returns _] => set (g0 := x)
  end.
  exists g0.
  assert (exists g1,
             Generate existsSync rev g0 = Returns g1 /\
             options g1 = options g0 /\
             spawned (events g1)
             = [ExecFileDecoder
                  (Options.ffmpegPath (options g0)) input
                  (Options.frameCodec (options g0))
                  (Options.fps (options g0))
                  (totalFrames g1)
                  (Options.maxBuffer (options g0))])
    as (g1 & Hg1 & Ho1 & Hs1).
  { unfold Generate. subst g0. cbn [options Options.input].
    rewrite Hexists. cbn [negb].
    destruct rev; eexists; (split; [reflexivity|]); fields;
      split; reflexivity. }
  exists g1. destruct (Htotal g1) as [g2 H2]. exists g2.
  split; [reflexivity|]. split; [exact Hg1|]. split; [exact H2|].
  cbv zeta.
  rewrite (OnFfmpegFramesOutputFinished_spawned _ _ _ _ _ H2), Hs1, Ho1.
  reflexivity.
Qed.

Lemma pipeline_spawns_with_defaults :
  exists g2,
    spawned (events g2)
    = [ExecFileDecoder "ffmpeg" "in.mp4" mjpeg 25.0%Q 250 DEFAULT_MAX_BUFFER;
       ExecFileEncoder "ffmpeg" 25.0%Q mjpeg "out.mp4"].
Proof.
  destruct (pipeline_spawns_decoder_then_encoder
              (fun _ => true) (fun _ => None) part_000
              (Raw.mk (Some "in.mp4"%string) (Some "out.mp4"%string)
                      None None None None None None None)
              "in.mp4" "out.mp4" [])
    as (g0 & g1 & g2 & H0 & H1 & _ & Hs);
    try reflexivity; try discriminate.
  exists g2. injection H0 as <-. vm_compute in H1. injection H1 as <-.
  exact Hs.
Defined.

(** X9. With both paths given, the entry point either finds the input
    file missing, prints that and starts nothing, or starts the decoder
    and nothing else.  The rate and the length being JavaScript numbers
    whose exact product is below 2^53 in magnitude, the decoder is
    capped at their product as the runtime rounds it, rounded up to an
    integer: that lies between the exact product rounded down and the
    exact product rounded up, and is the exact product when that is an
    integer. *)
Theorem index_try_input_file
        (existsSync : string -> bool) (rev : Revision) (raw : Raw.t)
        (input output : string) :
  Raw.input raw = Some input -> input <> ""%string ->
  Raw.output raw = Some output -> output <> ""%string ->
  let fps := numberOr (Raw.fps raw) DEFAULT_FRAMERATE in
  let length := numberOr (Raw.length raw) DEFAULT_LENGTH in
  (existsSync input = false ->
   index_try existsSync rev raw
   = [ConsoleError "An error occured: Error: Input file does not exist."]) /\
  (existsSync input = true ->
   Number.isDouble fps = true -> Number.isDouble length = true ->
   (Qabs (fps * length) < inject_Z (2 ^ 53))%Q ->
   exists frames : Z,
     index_try existsSync rev raw
     = [ExecFileDecoder (stringOr (Raw.ffmpegPath raw) "ffmpeg") input
                        (choiceOr FrameCodec_of_string (Raw.frameCodec raw)
                                  DEFAULT_FRAME_CODEC)
                        fps frames
                        (numberOr (Raw.maxBuffer raw) DEFAULT_MAX_BUFFER)] /\
     frames = Qceiling (Number.mul fps length) /\
     Qfloor (fps * length) <= frames <= Qceiling (fps * length) /\
     (forall n : Z, (fps * length == inject_Z n)%Q -> frames = n)).
Proof.
  intros Hin Hi Hout Ho fps length.
  unfold index_try, constructor. rewrite Hin, Hout.
  rewrite (falsyString_Some input Hi), (falsyString_Some output Ho).
  rewrite (stringOr_Some input _ Hi), (stringOr_Some output _ Ho).
  unfold Generate. cbn [options Options.input].
  split; intros He; rewrite He; cbn [negb]; [reflexivity|].
  intros _ _ Hsmall.
  exists (Qceiling (Number.mul fps length)).
  pose proof (mul_floor_ceiling fps length Hsmall) as Hb.
  split; [destruct rev; reflexivity|]. split; [reflexivity|].
  split; [exact Hb|].
  intros n Hn. rewrite Hn, Qfloor_Z, Qceiling_Z in Hb. lia.
Qed.

Lemma index_try_input_file_example :
  let raw :=
    Raw.mk (Some "in.mp4"%string) (Some "out.mp4"%string) None None
           (Some 50%Q) None None None
           (Some (2476979795053773 # 2251799813685248)) in
  index_try (fun _ => false) part_000 raw
  = [ConsoleError "An error occured: Error: Input file does not exist."] /\
  exists frames : Z,
    index_try (fun _ => true) part_000 raw
    = [ExecFileDecoder "ffmpeg" "in.mp4" mjpeg
                       (2476979795053773 # 2251799813685248) frames
                       DEFAULT_MAX_BUFFER] /\
    55 <= frames <= 56.
Proof.
  intros raw. split.
  - refine (proj1 (index_try_input_file
                     (fun _ => false) part_000 raw "in.mp4" "out.mp4"
                     eq_refl _ eq_refl _) eq_refl); discriminate.
  - destruct (proj2 (index_try_input_file
                       (fun _ => true) part_000 raw "in.mp4" "out.mp4"
                       eq_refl ltac:(discriminate) eq_refl
                       ltac:(discriminate))
                    eq_refl eq_refl eq_refl eq_refl)
      as (frames & Ht & _ & Hb & _).
    exists frames. split; [exact Ht|]. vm_compute in Hb. exact Hb.
Defined.

(** X10. What the caller gives is kept: a rate, a length or a buffer
    size other than zero, negative ones included, a colour array even
    when it is empty, a non-empty executable path, and a direction or
    codec that is one of the choices; a direction or codec that is not
    one of the choices is replaced by the default without an error. *)
Theorem constructor_keeps_given (rev : Revision) (raw : Raw.t) :
  falsyString (Raw.input raw) = false ->
  falsyString (Raw.output raw) = false ->
  exists g,
    constructor rev raw = Returns g /\
    let o := options g in
    Raw.input raw = Some (Options.input o) /\
    Raw.output raw = Some (Options.output o) /\
    (forall q, Raw.fps raw = Some q -> ~ (q == 0)%Q -> Options.fps o = q) /\
    (forall q, Raw.length raw = Some q -> ~ (q == 0)%Q ->
               Options.length o = q) /\
    (forall q, Raw.maxBuffer raw = Some q -> ~ (q == 0)%Q ->
               Options.maxBuffer o = q) /\
    (forall c, Raw.lineColor raw = Some c -> Options.lineColor o = c) /\
    (forall s, Raw.ffmpegPath raw = Some s -> s <> ""%string ->
               Options.ffmpegPath o = s) /\
    (forall s, Raw.lineDirection raw = Some s ->
               Options.lineDirection o
               = match LineDirection_of_string s with
                 | Some d => d
                 | None => right
                 end) /\
    (forall s, Raw.frameCodec raw = Some s ->
               Options.frameCodec o
               = match FrameCodec_of_string s with
                 | Some c => c
                 | None => mjpeg
                 end).
Proof.
  intros Hin Hout. unfold constructor. rewrite Hin, Hout.
  eexists. split; [reflexivity|]. cbv zeta.
  cbn [options Options.input Options.output Options.fps Options.length
       Options.maxBuffer Options.lineColor Options.ffmpegPath
       Options.lineDirection Options.frameCodec].
  assert (forall q d, ~ (q == 0)%Q -> numberOr (Some q) d = q) as Hnum.
  { intros q d Hq. unfold numberOr. cbn [falsyNumber].
    destruct (Qeq_bool q 0) eqn:E; [|reflexivity].
    apply Qeq_bool_iff in E. contradiction. }
  repeat split.
  - destruct (Raw.input raw) as [s|]; [|discriminate].
    unfold stringOr. now rewrite Hin.
  - destruct (Raw.output raw) as [s|]; [|discriminate].
    unfold stringOr. now rewrite Hout.
  - intros q -> Hq. now apply Hnum.
  - intros q -> Hq. now apply Hnum.
  - intros q -> Hq. now apply Hnum.
  - intros c ->. reflexivity.
  - intros s -> Hs. now apply stringOr_Some.
  - intros s ->. unfold choiceOr. cbn [falsyString].
    destruct (String.eqb s "") eqn:E; [|reflexivity].
    apply String.eqb_eq in E. subst. reflexivity.
  - intros s ->. unfold choiceOr. cbn [falsyString].
    destruct (String.eqb s "") eqn:E; [|reflexivity].
    apply String.eqb_eq in E. subst. reflexivity.
Qed.

Lemma constructor_keeps_negative_rate :
  exists g,
    constructor part_000
      (Raw.mk (Some "in.mp4"%string) (Some "out.mp4"%string) None None None
              (Some "sideways"%string) None (Some []) (Some (-25)%Q))
    = Returns g /\
    Options.fps (options g) = (-25)%Q /\
    Options.lineColor (options g) = [] /\
    Options.lineDirection (options g) = right.
Proof.
  destruct (constructor_keeps_given
              part_000
              (Raw.mk (Some "in.mp4"%string) (Some "out.mp4"%string) None
                      None None (Some "sideways"%string) None (Some [])
                      (Some (-25)%Q))
              eq_refl eq_refl)
    as (g & Hg & _ & _ & Hfps & _ & _ & Hcolor & _ & Hdir & _).
  exists g. split; [exact Hg|]. split; [|split].
  - apply Hfps; [reflexivity|]. intros H. discriminate H.
  - apply Hcolor. reflexivity.
  - apply (Hdir "sideways"%string). reflexivity.
Defined.

(** ** The line and the crop in every direction *)

Lemma firstFrameCrop_full (d : LineDirection) (totalFrames : Z)
      (image : Image) :
  firstFrameCrop d totalFrames image (Rectangle.new 0 0 0 0) (Size.new 0 0)
  = (Rectangle.new 0 0 (width image) (height image),
     match d with
     | left | right =>
         Size.new (Math_ceil_div (width image) totalFrames) 0
     | up | down =>
         Size.new 0 (Math_ceil_div (height image) totalFrames)
     end).
Proof. destruct d; reflexivity. Qed.

(** X11. In part_000, for every direction, frame after frame the
    rectangle drawn is the full first frame advanced once for every
    frame before, and the line is stroked along the edge of that
    rectangle that moves: at x = width - i * step for left, x = i * step
    for right, y = height - i * step for up and y = i * step for down,
    where the step is at least one pixel.  The frames decode, the first
    one is at least one pixel wide and high, [totalFrames] is at least
    one, the frame counter starts at 0 and the line colour has its
    three channels. *)
Theorem line_follows_crop
        (loadImage : Buffer.t -> option Image) (g : BlueLineGenerator)
        (frame : Buffer.t) (frames : list Buffer.t) (image : Image) :
  1 <= totalFrames g ->
  frameImages g = frame :: frames ->
  currentFrameNum g = 0 ->
  strokeStyleOf (Options.lineColor (options g)) <> None ->
  loadImage frame = Some image ->
  1 <= width image -> 1 <= height image ->
  Forall (fun f => loadImage f <> None) frames ->
  let d := Options.lineDirection (options g) in
  let w := width image in
  let h := height image in
  let sw := Math_ceil_div w (totalFrames g) in
  let sh := Math_ceil_div h (totalFrames g) in
  let step :=
    match d with
    | left | right => Size.new sw 0
    | up | down => Size.new 0 sh
    end in
  let rectBefore (i : nat) :=
    Nat.iter i (advance d step) (Rectangle.new 0 0 w h) in
  let n := S (List.length frames) in
  exists g',
    DoEffect loadImage part_000 g = Returns g' /\
    clips (events g') = clips (events g) ++ map rectBefore (seq 0 n) /\
    strokes (events g')
    = strokes (events g) ++ map (fun i => line d (rectBefore i)) (seq 0 n) /\
    1 <= sw /\ 1 <= sh /\
    (forall i : nat,
        let k := Z.of_nat i in
        line d (rectBefore i)
        = match d with
          | left => (Point.new (w - k * sw) 0, Point.new (w - k * sw) h)
          | right => (Point.new (k * sw) 0, Point.new (k * sw) h)
          | up => (Point.new 0 (h - k * sh), Point.new w (h - k * sh))
          | down => (Point.new 0 (k * sh), Point.new w (k * sh))
          end).
Proof.
  intros Ht Hf Hc Hstyle Hload Hw Hh Hrest d w h sw sh step rectBefore n.
  destruct (strokeStyleOf (Options.lineColor (options g)))
    as [strokeStyle|] eqn:Es; [clear Hstyle|congruence].
  unfold DoEffect. fields. cbn [frameChain]. rewrite Hf.
  match goal with
  | |- context [GetNextFrame ?g0] =>
      rewrite (GetNextFrame_some g0 [] frames frame eq_refl Hc)
  end.
  fields.
  erewrite DoEffectSingleFrame_first;
    [|exact Hload|reflexivity|fields; exact Es].
  fields. rewrite firstFrameCrop_full. fold d w h sw sh step. fields.
  match goal with
  | |- context [frameChain loadImage ?fuel ?g1] =>
      destruct (frameChain_later loadImage frames [frame] g1 fuel)
        as (g' & Hrun & Hc' & Hs');
      [ reflexivity
      | cbn [currentFrameNum List.length]; lia
      | exact Hrest
      | cbn [effectCanvas Size.Width]; lia
      | cbn [List.length]; lia
      | ]
  end.
  exists g'. split; [exact Hrun|].
  cbn [options cropRect cropRectShrinkSize events] in Hc', Hs'.
  fold d in Hc', Hs'.
  rewrite Hc', Hs', !clips_app, !strokes_app.
  subst n. cbn [seq map]. rewrite <- seq_shift, !map_map.
  cbn [clips strokes flat_map app]. rewrite <- surjective_pairing.
  rewrite <- !app_assoc. cbn [app].
  split; [|split; [|split; [|split]]].
  - do 2 f_equal. apply map_ext. intros i. subst rectBefore. cbv beta.
    rewrite Nat.iter_succ_r. reflexivity.
  - f_equal. f_equal. apply map_ext. intros i. subst rectBefore. cbv beta.
    rewrite Nat.iter_succ_r. reflexivity.
  - apply Math_ceil_div_pos; lia.
  - apply Math_ceil_div_pos; lia.
  - intros i. subst rectBefore. cbv beta zeta. rewrite iter_advance.
    subst step. destruct d; reflexivity.
Qed.

Lemma line_follows_crop_down :
  let loadImage := fun _ : Buffer.t => Some {| width := 100; height := 100 |} in
  let g :=
    mk (Options.mk "in.mp4" "out.mp4" "ffmpeg" DEFAULT_MAX_BUFFER 1 down
                   png [0; 194; 203] 10)
       10 [[x89; x50; x4e; x47; x00]; [x89; x50; x4e; x47; x01]]
       (Size.new 0 0) (Size.new 0 0) 0 (Rectangle.new 0 0 0 0)
       (Size.new 0 0) [] in
  exists g',
    DoEffect loadImage part_000 g = Returns g' /\
    strokes (events g')
    = [(Point.new 0 0, Point.new 100 0); (Point.new 0 10, Point.new 100 10)].
Proof.
  intros loadImage g.
  destruct (line_follows_crop
              loadImage g [x89; x50; x4e; x47; x00]
              [[x89; x50; x4e; x47; x01]]
              {| width := 100; height := 100 |})
    as (g' & Hrun & _ & Hs & _);
    try reflexivity; try discriminate; try (cbn; lia).
  - repeat constructor; discriminate.
  - exists g'. split; [exact Hrun|]. rewrite Hs. reflexivity.
Defined.

(** The loop of blueline.ts after the first frame: one rectangle drawn
    for every frame, no line. *)
Lemma forFrames_later (loadImage : Buffer.t -> option Image)
      (rest : list Buffer.t) :
  forall g : BlueLineGenerator,
    Forall (fun frame => loadImage frame <> None) rest ->
    Size.Width (effectCanvas g) <> 0 ->
    let d := Options.lineDirection (options g) in
    let rectBefore (i : nat) :=
      Nat.iter i (advance d (cropRectShrinkSize g)) (cropRect g) in
    clips (events (forFrames loadImage g rest))
    = clips (events g) ++ map rectBefore (seq 0 (List.length rest)) /\
    strokes (events (forFrames loadImage g rest)) = strokes (events g).
Proof.
  induction rest as [|frame rest IH]; intros g Hload Hw d rectBefore;
    cbn [forFrames].
  - fields. rewrite clips_app, strokes_app. cbn. now rewrite !app_nil_r.
  - inversion Hload as [|? ? Hframe Hrest]; subst.
    destruct (loadImage frame) as [image|] eqn:E; [|congruence].
    replace (Size.Width (effectCanvas g) =? 0) with false
      by (symmetry; now apply Z.eqb_neq).
    match goal with
    | |- context [forFrames loadImage ?g1 rest] =>
        destruct (IH g1 Hrest) as [Hc Hs]; [fields; exact Hw|]
    end.
    rewrite Hc, Hs. fields. rewrite !clips_app, !strokes_app.
    cbn [List.length seq map]. rewrite <- seq_shift, !map_map.
    cbn [clips strokes flat_map app]. rewrite <- !app_assoc, !app_nil_r.
    cbn [app]. split; [|reflexivity].
    subst d rectBefore. cbn [Nat.iter]. do 2 f_equal.
    apply map_ext. intros i. rewrite Nat.iter_succ_r. reflexivity.
Qed.

(** X12. The earlier revision, blueline.ts, crops as part_000 does and
    draws no line: its rectangles are the full first frame advanced
    once for every frame before, with the step fixed by the first
    frame, and nothing is stroked. *)
Theorem blueline_ts_crops_without_line
        (loadImage : Buffer.t -> option Image) (g : BlueLineGenerator)
        (frame : Buffer.t) (frames : list Buffer.t) (image : Image) :
  1 <= totalFrames g ->
  frameImages g = frame :: frames ->
  loadImage frame = Some image ->
  1 <= width image ->
  Forall (fun f => loadImage f <> None) frames ->
  let d := Options.lineDirection (options g) in
  let step :=
    match d with
    | left | right =>
        Size.new (Math_ceil_div (width image) (totalFrames g)) 0
    | up | down =>
        Size.new 0 (Math_ceil_div (height image) (totalFrames g))
    end in
  let rectBefore (i : nat) :=
    Nat.iter i (advance d step)
             (Rectangle.new 0 0 (width image) (height image)) in
  exists g',
    DoEffect loadImage blueline_ts g = Returns g' /\
    clips (events g')
    = clips (events g) ++ map rectBefore (seq 0 (S (List.length frames))) /\
    strokes (events g') = strokes (events g).
Proof.
  intros Ht Hf Hload Hw Hrest d step rectBefore.
  unfold DoEffect. fields. rewrite Hf. cbn [forFrames]. rewrite Hload.
  fields. cbn [Size.Width Z.eqb]. fields.
  rewrite firstFrameCrop_full. fold d step. fields.
  eexists. split; [reflexivity|].
  match goal with
  | |- context [forFrames loadImage ?g1 frames] =>
      destruct (forFrames_later loadImage frames g1 Hrest) as [Hc Hs];
        [cbn [effectCanvas Size.Width]; lia|]
  end.
  cbn [options cropRect cropRectShrinkSize events] in Hc, Hs.
  fold d in Hc, Hs |- *. rewrite Hc, Hs, !clips_app, !strokes_app.
  cbn [seq map]. rewrite <- seq_shift, !map_map.
  cbn [clips strokes flat_map app]. rewrite <- !app_assoc, !app_nil_r.
  cbn [app]. split; [|reflexivity].
  do 2 f_equal. apply map_ext. intros i. subst rectBefore. cbv beta.
  rewrite Nat.iter_succ_r. reflexivity.
Qed.

Lemma blueline_ts_crops_two_frames :
  let loadImage := fun _ : Buffer.t => Some {| width := 10; height := 4 |} in
  let g :=
    mk (Options.mk "in.mp4" "out.mp4" "ffmpeg" DEFAULT_MAX_BUFFER 1 right
                   mjpeg [] 3)
       3 [[xff; xd8; xff; x00]; [xff; xd8; xff; x01]]
       (Size.new 0 0) (Size.new 0 0) 0 (Rectangle.new 0 0 0 0)
       (Size.new 0 0) [] in
  exists g',
    DoEffect loadImage blueline_ts g = Returns g' /\
    clips (events g') = [Rectangle.new 0 0 10 4; Rectangle.new 4 0 6 4] /\
    strokes (events g') = [].
Proof.
  intros loadImage g.
  destruct (blueline_ts_crops_without_line
              loadImage g [xff; xd8; xff; x00] [[xff; xd8; xff; x01]]
              {| width := 10; height := 4 |})
    as (g' & Hrun & Hc & Hs);
    try reflexivity; try (cbn; lia).
  - repeat constructor; discriminate.
  - exists g'. split; [exact Hrun|]. rewrite Hc, Hs. split; reflexivity.
Defined.

(** ** Strings: the default output name, the archive, the colour *)

Lemma string_length_app (a b : string) :
  String.length (a ++ b) = (String.length a + String.length b)%nat.
Proof. induction a as [|c a IH]; cbn; [reflexivity|now rewrite IH]. Qed.

Lemma string_app_assoc (a b c : string) :
  ((a ++ b) ++ c = a ++ b ++ c)%string.
Proof. induction a as [|x a IH]; cbn; [reflexivity|now rewrite IH]. Qed.

Lemma string_app_inv_head (a b c : string) :
  (a ++ b = a ++ c)%string -> b = c.
Proof.
  induction a as [|x a IH]; cbn; intros H; [exact H|].
  injection H as H. now apply IH.
Qed.

Lemma substring_prefix (a b : string) :
  substring 0 (String.length a) (a ++ b) = a.
Proof.
  induction a as [|x a IH]; cbn.
  - destruct b; reflexivity.
  - now rewrite IH.
Qed.

Lemma allChars_app (p : ascii -> bool) (a b : string) :
  Color.allChars p (a ++ b) = Color.allChars p a && Color.allChars p b.
Proof.
  induction a as [|x a IH]; cbn; [reflexivity|].
  now rewrite IH, andb_assoc.
Qed.

(** The last index of a character: either it does not occur and the
    index is the one carried along, or the string splits at its last
    occurrence. *)
Lemma lastIndexOfFrom_split (c : ascii) (s : string) :
  forall pos found : Z,
    let p x := negb (Ascii.eqb x c) in
    (Color.allChars p s = true /\
     Index.lastIndexOfFrom c s pos found = found) \/
    (exists pre post,
        s = (pre ++ String c post)%string /\
        Color.allChars p post = true /\
        Index.lastIndexOfFrom c s pos found
        = pos + Z.of_nat (String.length pre)).
Proof.
  induction s as [|a s IH]; intros pos found p.
  - left. split; reflexivity.
  - cbn [Index.lastIndexOfFrom].
    destruct (IH (pos + 1) (if Ascii.eqb a c then pos else found))
      as [[Hno Hr]|(pre & post & Hs & Hpost & Hr)].
    + destruct (Ascii.eqb a c) eqn:E.
      * right. apply Ascii.eqb_eq in E. subst a.
        exists EmptyString, s. repeat split; [exact Hno|].
        rewrite Hr. cbn. lia.
      * left. split; [|exact Hr]. cbn. subst p. cbv beta.
        rewrite E. exact Hno.
    + right. exists (String a pre), post. repeat split.
      * cbn. now rewrite Hs.
      * exact Hpost.
      * rewrite Hr. cbn [String.length]. lia.
Qed.

(** X13. The default name of the output, from the base name of the
    input: what follows the last dot is replaced by [_blueline.mp4];
    a name without a dot only gets [_blueline] appended, with no
    extension.  Either way the name differs from the name of the
    input. *)
Theorem defaultFilename_spec (filename : string) :
  ((noDot filename = true /\
    Index.defaultFilename filename = (filename ++ "_blueline")%string) \/
   (exists stem ext,
       filename = (stem ++ "." ++ ext)%string /\
       noDot ext = true /\
       Index.defaultFilename filename = (stem ++ "_blueline.mp4")%string)) /\
  Index.defaultFilename filename <> filename.
Proof.
  unfold Index.defaultFilename, Index.lastIndexOf, noDot.
  destruct (lastIndexOfFrom_split "." filename 0 (-1))
    as [[Hno Hr]|(pre & post & Hs & Hpost & Hr)]; rewrite Hr.
  - rewrite Z.eqb_refl. cbn [negb].
    split; [left; split; [exact Hno|reflexivity]|].
    intros H. apply (f_equal String.length) in H.
    rewrite string_length_app in H. cbn in H. lia.
  - replace (0 + Z.of_nat (String.length pre) =? -1) with false
      by (symmetry; apply Z.eqb_neq; lia).
    cbn [negb]. rewrite Z.add_0_l, Nat2Z.id, Hs, substring_prefix.
    split.
    + right. exists pre, post. repeat split. exact Hpost.
    + intros H. apply string_app_inv_head in H. discriminate H.
Qed.

(** X14. The archive's name has one dot only, the one of [.zip],
    whatever the version: every dot of the version has become a dash,
    and every other character of it is kept in place. *)
Theorem zipName_one_dot (version : string) :
  Package.zipName version
  = ("openblueline-" ++ Package.replaceDots version ++ ".zip")%string /\
  noDot ("openblueline-" ++ Package.replaceDots version) = true /\
  String.length (Package.replaceDots version) = String.length version /\
  (forall i c, String.get i version = Some c ->
               String.get i (Package.replaceDots version)
               = Some (if Ascii.eqb c "." then "-"%char else c)).
Proof.
  split; [reflexivity|]. split; [|split].
  - unfold noDot. rewrite allChars_app. cbn [andb].
    change (Color.allChars (fun c => negb (Ascii.eqb c "."))
                           "openblueline-") with true.
    cbn [andb].
    induction version as [|c v IH]; cbn; [reflexivity|].
    rewrite IH. destruct (Ascii.eqb c ".") eqn:E; [reflexivity|].
    now rewrite E.
  - induction version as [|c v IH]; cbn; [reflexivity|now rewrite IH].
  - induction version as [|x v IH]; intros i c H; [discriminate|].
    destruct i as [|i]; cbn in H |- *.
    + injection H as ->. reflexivity.
    + now apply IH.
Qed.

Lemma repeat_length (count : nat) :
  String.length (Color.repeat "0" count) = count.
Proof. induction count as [|k IH]; cbn; [reflexivity|now rewrite IH]. Qed.

(** X15. Padding never cuts: [zeroPadNumber] puts as many zeros in
    front as are missing and none when the number is long enough, so
    [RgbToHexString] has six characters at least, and more when a
    channel needs more than two digits. *)
Theorem RgbToHexString_never_truncates (red green blue : Z) :
  (forall (num : string) (desired_length : nat),
      Color.zeroPadNumber num desired_length
      = (Color.repeat "0" (desired_length - String.length num) ++ num)%string
      /\ String.length (Color.zeroPadNumber num desired_length)
         = Nat.max (String.length num) desired_length) /\
  String.length (Color.RgbToHexString red green blue)
  = (Nat.max (String.length (Color.toString16 red)) 2
     + Nat.max (String.length (Color.toString16 green)) 2
     + Nat.max (String.length (Color.toString16 blue)) 2)%nat /\
  (6 <= String.length (Color.RgbToHexString red green blue))%nat.
Proof.
  assert (forall (num : string) (desired_length : nat),
             Color.zeroPadNumber num desired_length
             = (Color.repeat "0" (desired_length - String.length num)
                ++ num)%string
             /\ String.length (Color.zeroPadNumber num desired_length)
                = Nat.max (String.length num) desired_length) as Hpad.
  { intros num d. unfold Color.zeroPadNumber.
    destruct (String.length num <? d)%nat eqn:E.
    - apply Nat.ltb_lt in E. split; [reflexivity|].
      rewrite string_length_app, repeat_length. lia.
    - apply Nat.ltb_ge in E.
      replace (d - String.length num)%nat with 0%nat by lia.
      split; [reflexivity|]. lia. }
  split; [exact Hpad|].
  unfold Color.RgbToHexString.
  rewrite !string_length_app.
  rewrite (proj2 (Hpad (Color.toString16 red) 2%nat)).
  rewrite (proj2 (Hpad (Color.toString16 green) 2%nat)).
  rewrite (proj2 (Hpad (Color.toString16 blue) 2%nat)).
  split; lia.
Qed.

(** A channel above 255 makes the string longer than six characters. *)
Example RgbToHexString_256 :
  Color.RgbToHexString 256 0 0 = "1000000"%string.
Proof. reflexivity. Qed.

(** X16. With three channels in 0..255 the stroke style is a pound
    sign and six hexadecimal digits, and channels after the third are
    ignored. *)
Theorem strokeStyleOf_well_formed (red green blue : Z) (more : list Z) :
  0 <= red <= 255 -> 0 <= green <= 255 -> 0 <= blue <= 255 ->
  exists digits,
    strokeStyleOf (red :: green :: blue :: more)
    = Some (String "#" digits) /\
    strokeStyleOf [red; green; blue] = Some (String "#" digits) /\
    String.length digits = 6%nat /\
    Color.allChars Color.isHexDigit digits = true.
Proof.
  intros Hr Hg Hb.
  destruct (channel_group red Hr) as (r1 & r2 & Er & Hr1 & Hr2 & _).
  destruct (channel_group green Hg) as (g1 & g2 & Eg & Hg1 & Hg2 & _).
  destruct (channel_group blue Hb) as (b1 & b2 & Eb & Hb1 & Hb2 & _).
  exists (Color.RgbToHexString red green blue).
  split; [reflexivity|]. split; [reflexivity|].
  unfold Color.RgbToHexString. rewrite Er, Eg, Eb.
  cbn [String.append String.length Color.allChars].
  rewrite Hr1, Hr2, Hg1, Hg2, Hb1, Hb2. split; reflexivity.
Qed.

Lemma strokeStyleOf_default :
  strokeStyleOf (DEFAULT_LINE_COLOR part_000) = Some "#00c2cb"%string.
Proof.
  destruct (strokeStyleOf_well_formed 0 194 203 [])
    as (digits & Hs & _); try lia.
  reflexivity.
Defined.

(** ** Scanning what was extracted *)

Lemma occursAt_shift (value pre suf : Buffer.t) (q : nat) :
  occursAt value (pre ++ suf) (List.length pre + q) = occursAt value suf q.
Proof.
  unfold occursAt. rewrite Nat.add_comm, <- skipn_skipn.
  rewrite skipn_app, skipn_all, Nat.sub_diag. reflexivity.
Qed.

(** A search in what follows a prefix is the search in the whole
    buffer, moved by the length of the prefix. *)
Lemma indexOf_shift (value pre suf : Buffer.t) (off : nat) :
  value <> [] ->
  let k := Z.of_nat (List.length pre) in
  let found := Buffer.indexOf suf value (Z.of_nat off) in
  Buffer.indexOf (pre ++ suf) value (k + Z.of_nat off)
  = if found =? -1 then -1 else k + found.
Proof.
  intros Hv k found. subst k found.
  rewrite <- Nat2Z.inj_add.
  destruct (Buffer.indexOf suf value (Z.of_nat off) =? -1) eqn:E.
  - apply Z.eqb_eq in E. apply indexOf_none. intros q Hq.
    replace q with (List.length pre + (q - List.length pre))%nat by lia.
    rewrite occursAt_shift.
    apply (indexOf_absent suf value off Hv E). lia.
  - apply Z.eqb_neq in E.
    destruct (indexOf_first suf value off Hv E) as (p & Hp & Hr & Hocc & Hno).
    rewrite Hp, <- Nat2Z.inj_add.
    apply indexOf_found; [exact Hv|lia|now rewrite occursAt_shift|].
    intros q Hq.
    replace q with (List.length pre + (q - List.length pre))%nat by lia.
    rewrite occursAt_shift. apply Hno. lia.
Qed.

Lemma slice_shift (pre suf : Buffer.t) (s e : nat) :
  (s <= e <= List.length suf)%nat ->
  Buffer.slice (pre ++ suf) (Z.of_nat (List.length pre) + Z.of_nat s)
               (Some (Z.of_nat (List.length pre) + Z.of_nat e))
  = Buffer.slice suf (Z.of_nat s) (Some (Z.of_nat e)).
Proof.
  intros Hse. rewrite <- !Nat2Z.inj_add.
  rewrite !slice_span by (rewrite ?length_app; lia).
  replace (List.length pre + e - (List.length pre + s))%nat
    with (e - s)%nat by lia.
  rewrite Nat.add_comm, <- skipn_skipn.
  rewrite skipn_app, skipn_all, Nat.sub_diag. reflexivity.
Qed.

Lemma slice_shift_end (pre suf : Buffer.t) (s : nat) :
  (s <= List.length suf)%nat ->
  Buffer.slice (pre ++ suf) (Z.of_nat (List.length pre) + Z.of_nat s) None
  = Buffer.slice suf (Z.of_nat s) None.
Proof.
  intros Hs. rewrite <- !Nat2Z.inj_add.
  rewrite !slice_from by (rewrite ?length_app; lia).
  rewrite Nat.add_comm, <- skipn_skipn.
  rewrite skipn_app, skipn_all, Nat.sub_diag. reflexivity.
Qed.

(** The loop on a buffer from a match on is the loop on what follows a
    prefix of it. *)
Lemma scan_shift (magicNumber pre suf : Buffer.t) :
  magicNumber <> [] ->
  forall (fuel s : nat) (acc : list Buffer.t),
    (s < List.length suf)%nat ->
    scan fuel (pre ++ suf) magicNumber
         (Z.of_nat (List.length pre) + Z.of_nat s)
         (Buffer.indexOf (pre ++ suf) magicNumber
            (Z.of_nat (List.length pre) + Z.of_nat s
             + Z.of_nat (List.length magicNumber)))
         acc
    = scan fuel suf magicNumber (Z.of_nat s)
           (Buffer.indexOf suf magicNumber
              (Z.of_nat s + Z.of_nat (List.length magicNumber)))
           acc.
Proof.
  intros Hm. induction fuel as [|fuel IH]; intros s acc Hs; [reflexivity|].
  cbn [scan].
  replace (Z.of_nat (List.length pre) + Z.of_nat s =? -1) with false
    by (symmetry; apply Z.eqb_neq; lia).
  replace (Z.of_nat s =? -1) with false
    by (symmetry; apply Z.eqb_neq; lia).
  rewrite <- Z.add_assoc, <- (Nat2Z.inj_add s).
  rewrite (indexOf_shift magicNumber pre suf _ Hm).
  destruct (Buffer.indexOf suf magicNumber
              (Z.of_nat (s + List.length magicNumber)) =? -1) eqn:E.
  - cbn [Z.eqb negb]. rewrite slice_shift_end by lia. reflexivity.
  - apply Z.eqb_neq in E.
    destruct (indexOf_first suf magicNumber _ Hm E) as (e & He & Hr & _).
    rewrite He.
    replace (Z.of_nat (List.length pre) + Z.of_nat e =? -1) with false
      by (symmetry; apply Z.eqb_neq; lia).
    replace (Z.of_nat e =? -1) with false
      by (symmetry; apply Z.eqb_neq; lia).
    cbn [negb]. rewrite slice_shift by lia.
    apply IH. lia.
Qed.

(** More fuel does not change what the loop returns. *)
Lemma scan_more_fuel (stdout magicNumber : Buffer.t) :
  forall (fuel more : nat) (startIndex endIndex : Z)
         (acc frames : list Buffer.t),
    scan fuel stdout magicNumber startIndex endIndex acc = Some frames ->
    scan (fuel + more) stdout magicNumber startIndex endIndex acc
    = Some frames.
Proof.
  induction fuel as [|fuel IH]; intros more s e acc frames H;
    [discriminate|].
  cbn [Nat.add scan] in H |- *.
  destruct (s =? -1); [exact H|].
  destruct (negb (e =? -1)); [|exact H].
  now apply IH.
Qed.

(** X17. Scanning again what the scan returned changes nothing: the
    frames of any buffer, laid end to end, are split into the same
    frames. *)
Theorem extractFrames_idempotent
        (frameCodec : FrameCodec) (stdout : Buffer.t)
        (frames : list Buffer.t) :
  extractFrames frameCodec stdout = Some frames ->
  extractFrames frameCodec (List.concat frames) = Some frames.
Proof.
  intros Hframes.
  pose proof (magicNumberOf_not_nil frameCodec) as Hm.
  set (m := magicNumberOf frameCodec) in *.
  pose proof Hframes as Hscan. unfold extractFrames in Hscan.
  fold m in Hscan.
  destruct (Z.eq_dec (Buffer.indexOf stdout m 0) (-1)) as [E|E].
  - rewrite E in Hscan. cbn [scan Z.eqb] in Hscan. injection Hscan as <-.
    clear. destruct frameCodec; reflexivity.
  - destruct (indexOf_first stdout m 0 Hm E) as (s & Hs & Hrange & Hocc & _).
    change 0 with (Z.of_nat 0) in Hscan. rewrite Hs in Hscan.
    destruct (scan_partition stdout m Hm _ s [] frames Hocc Hscan)
      as (pushed & Hf & Hc & _).
    cbn [app] in Hf. subst pushed.
    assert (stdout = firstn s stdout ++ List.concat frames) as Hsplit
      by (rewrite Hc; symmetry; apply firstn_skipn).
    assert (List.length (firstn s stdout) = s) as Hlen
      by (rewrite length_firstn; lia).
    assert (0 < List.length (List.concat frames))%nat as Hpos
      by (rewrite Hc, length_skipn; lia).
    rewrite Hsplit in Hscan at 2 3.
    replace (Z.of_nat s)
      with (Z.of_nat (List.length (firstn s stdout)) + Z.of_nat 0)
      in Hscan by lia.
    rewrite (scan_shift m _ _ Hm _ 0 [] Hpos) in Hscan.
    assert (Buffer.indexOf (List.concat frames) m 0 = 0) as E0.
    { apply (indexOf_found _ _ 0 0 Hm); [lia| |intros q Hq; lia].
      rewrite <- (occursAt_shift m (firstn s stdout)), <- Hsplit, Hlen.
      now rewrite Nat.add_0_r. }
    destruct (extractFrames_total frameCodec (List.concat frames))
      as [again Hagain].
    rewrite Hagain. pose proof Hagain as H2. unfold extractFrames in H2.
    fold m in H2. rewrite E0 in H2. change (Z.of_nat 0) with 0 in Hscan.
    apply (scan_more_fuel _ _ _ (S (List.length stdout))) in H2.
    apply (scan_more_fuel _ _ _ (S (List.length (List.concat frames))))
      in Hscan.
    rewrite Nat.add_comm in Hscan. congruence.
Qed.

Lemma extractFrames_idempotent_leading_bytes :
  extractFrames png (List.concat [[x89; x50; x4e; x47; x0d]])
  = Some [[x89; x50; x4e; x47; x0d]].
Proof.
  apply (extractFrames_idempotent
           png [x00; x01; x89; x50; x4e; x47; x0d]).
  reflexivity.
Defined.
